(** * Bubble aggregation and client-side callbacks of [app.py]

    A shallow embedding of the data-preparation pipeline of [src/app.py]
    (nonzero counts, ranking, label deduplication, coordinate binding,
    table construction) and of the three embedded JavaScript callbacks
    (selection panel, zoom label toggle, threshold slider).

    Modelling conventions
    - activations, coordinates and slider values are finite binary64
      numbers in the program; every such number is a rational, so they
      are values of [Q] where the program only compares them, and the
      constant they are compared with is the binary64 value of the
      literal; halving a count is exact in binary64;
    - the axis ranges of the zoom callback are subtracted, which
      rounds: they are kernel binary64 floats with their own
      subtraction and comparison;
    - Python dictionaries are [gmap]s, a failed lookup or [max] of an
      empty sequence (an exception that aborts the script) is [None];
    - a JavaScript array cell may be [undefined]; it is an [option];
    - [np.argsort] is an interface: any index permutation that sorts the
      keys in non-decreasing order (numpy's default sort is not stable,
      so nothing else is assumed about ties). *)

From Stdlib Require Import QArith.
From Stdlib Require Import PrimFloat.
From stdpp Require Import gmap strings list fin_maps sorting.

Close Scope Q_scope.
Local Open Scope nat_scope.

(** ** Numeric helpers *)

(** [x > y] on floats, as a boolean. *)
Definition Qgtb (x y : Q) : bool := negb (Qle_bool x y).

(** The literal [0.1] of line 37: the binary64 number nearest to one
    tenth, 3602879701896397 / 2^55, which lies slightly above 1/10.
    The cells it is compared with are binary64 numbers, so the
    comparison itself is exact. *)
Definition tenth : Q := (3602879701896397 # 36028797018963968)%Q.

(** A count seen as a float. *)
Definition Qnat (n : nat) : Q := inject_Z (Z.of_nat n).

(** Python's [max] over a sequence of naturals: [None] is the
    [ValueError] raised on an empty sequence. *)
Definition py_max (l : list nat) : option nat :=
  match l with
  | [] => None
  | n :: ns => Some (foldl Nat.max n ns)
  end.

(** ** [np.argsort] *)

Class ArgSort (K : Type) (le : K -> K -> Prop) := {
  argsort : list K -> list nat;
  argsort_perm : forall l, argsort l ≡ₚ seq 0 (length l);
  argsort_sorted : forall l p q a b x y,
    p <= q ->
    argsort l !! p = Some a -> argsort l !! q = Some b ->
    l !! a = Some x -> l !! b = Some y ->
    le x y
}.

(** A reference implementation: stable insertion sort of the
    (index, key) pairs. *)
Fixpoint insert_by {K} (leb : K -> K -> bool) (p : nat * K)
    (s : list (nat * K)) : list (nat * K) :=
  match s with
  | [] => [p]
  | q :: s' => if leb p.2 q.2 then p :: q :: s' else q :: insert_by leb p s'
  end.

Definition isort_by {K} (leb : K -> K -> bool) (s : list (nat * K)) :
    list (nat * K) :=
  foldr (insert_by leb) [] s.

Definition stable_argsort {K} (leb : K -> K -> bool) (l : list K) : list nat :=
  (isort_by leb (zip (seq 0 (length l)) l)).*1.

(** ** Input artifacts *)

(** A dense two-dimensional array of shape [(nrows, ncols)]: rows are
    examples, columns are features. *)
Record ndarray := {
  nrows : nat;
  ncols : nat;
  cell : nat -> nat -> Q
}.

Record inputs := {
  ind_to_question : gmap nat string;
  feature_activations : ndarray;
  feature_labels : gmap nat string;
  coords_2d : list (Q * Q)
}.

(** [feature_activations[:, i]] *)
Definition column (A : ndarray) (i : nat) : list Q :=
  (fun j => cell A j i) <$> seq 0 (nrows A).

(** [max(feature_labels.keys())] *)
Definition max_key (labels : gmap nat string) : option nat :=
  py_max (map_to_list labels).*1.

(** [(feature_activations[:, :m] > 0).sum(axis=0)]: a column slice is
    clamped to the array's width. *)
Definition nonzero_features (A : ndarray) (m : nat) : list nat :=
  (fun i => sum_list ((fun a => if Qgtb a 0 then 1 else 0) <$> column A i))
    <$> seq 0 (m `min` ncols A).

(** ** The Aggregator (lines 21-42) *)

Record agg_state := {
  texts : list string;
  numbers : list nat;
  expansions_map : gmap string (list string)
}.

Definition agg_init : agg_state :=
  {| texts := []; numbers := []; expansions_map := ∅ |}.

(** [texts.index(label)]: position of the first occurrence, [None] for
    the [ValueError] of an absent element. *)
Fixpoint index (label : string) (l : list string) : option nat :=
  match l with
  | [] => None
  | t :: l' => if decide (t = label) then Some 0 else S <$> index label l'
  end.

Section aggregator.
Context `{!ArgSort nat le} `{!ArgSort Q Qle}.
Variable inp : inputs.

Local Abbreviation A := (feature_activations inp).

(** [np.argsort(nonzero_features)[::-1]] *)
Definition top_features (nz : list nat) : list nat := reverse (argsort nz).

(** [np.argsort(feature_activations[:, i])[::-1][:10]] *)
Definition top_examples (i : nat) : list nat :=
  take 10 (reverse (argsort (column A i))).

(** The rows whose text is appended to [expansions_map[label]]. *)
Definition expansion_rows (i : nat) : list nat :=
  List.filter (fun j => Qgtb (cell A j i) tenth) (top_examples i).

(** Lines 35-38: the freshly built expansion list of feature [i]. *)
Definition expansions_of (i : nat) : option (list string) :=
  mapM (fun j => ind_to_question inp !! j) (expansion_rows i).

(** One iteration of the loop of lines 28-42. *)
Definition visit (nz : list nat) (st : agg_state) (i : nat) :
    option agg_state :=
  match feature_labels inp !! i with
  | None => Some st
  | Some label =>
    c ← nz !! i;
    if 50 <? c then
      if bool_decide (label ∈ texts st) then
        idx ← index label (texts st);
        old ← numbers st !! idx;
        Some {| texts := texts st;
                numbers := <[idx := old `max` c]> (numbers st);
                expansions_map := expansions_map st |}
      else
        es ← expansions_of i;
        Some {| texts := texts st ++ [label];
                numbers := numbers st ++ [c];
                expansions_map := <[label := es]> (expansions_map st) |}
    else Some st
  end.

Fixpoint aggregate_loop (nz : list nat) (fs : list nat) (st : agg_state) :
    option agg_state :=
  match fs with
  | [] => Some st
  | i :: fs' => st' ← visit nz st i; aggregate_loop nz fs' st'
  end.

(** The features the loop iterates over: [top_features[100:]]. *)
Definition iterated (nz : list nat) : list nat := drop 100 (top_features nz).

Definition aggregator : option agg_state :=
  m ← max_key (feature_labels inp);
  let nz := nonzero_features A m in
  aggregate_loop nz (iterated nz) agg_init.

End aggregator.

(** ** Coordinate binder (lines 47-58) *)

Record binding := {
  b_texts : list string;
  b_numbers : list nat;
  b_x_coords : list Q;
  b_y_coords : list Q
}.

(** [coords_2d] is an array of shape [(n, 2)]; [l[:k]] is [take k l]. *)
Definition bind_coords (st : agg_state) (coords : list (Q * Q)) : binding :=
  let x_coords := coords.*1 in
  let y_coords := coords.*2 in
  let min_len := length (texts st) `min` length x_coords in
  {| b_texts := take min_len (texts st);
     b_numbers := take min_len (numbers st);
     b_x_coords := take min_len x_coords;
     b_y_coords := take min_len y_coords |}.

(** ** Table construction (lines 60-84) *)

(** [t[:20] + "..." if len(t) > 20 else t]; one [ascii] stands for one
    character of the Python string. *)
Definition truncate_text (t : string) : string :=
  if 20 <? String.length t then String.substring 0 20 t +:+ "..." else t.

(** [n/2] is true division. *)
Definition circle_size (n : nat) : Q := (Qnat n / 2)%Q.

(** The [data] dictionary of a [ColumnDataSource] as Python builds it. *)
Record table := {
  d_x : list Q;
  d_y : list Q;
  d_text : list string;
  d_truncated : list string;
  d_number : list nat;
  d_size : list Q;
  d_expansions : list (list string)
}.

Definition build_table (emap : gmap string (list string)) (b : binding) :
    table :=
  {| d_x := b_x_coords b;
     d_y := b_y_coords b;
     d_text := b_texts b;
     d_truncated := truncate_text <$> b_texts b;
     d_number := b_numbers b;
     d_size := circle_size <$> b_numbers b;
     d_expansions := (fun t => default [] (emap !! t)) <$> b_texts b |}.

Section pipeline.
Context `{!ArgSort nat le} `{!ArgSort Q Qle}.

(** Everything up to [full_source]; [None] when the script aborts. *)
Definition full_source (inp : inputs) : option table :=
  st ← aggregator inp;
  Some (build_table (expansions_map st) (bind_coords st (coords_2d inp))).

End pipeline.

(** ** The tables as the browser sees them *)

(** Reading a JavaScript array outside its bounds gives [undefined],
    and a callback may store [undefined] in a cell. *)
Record js_data := {
  js_x : list (option Q);
  js_y : list (option Q);
  js_text : list (option string);
  js_truncated : list (option string);
  js_number : list (option nat);
  js_size : list (option Q);
  js_expansions : list (option (list string))
}.

Definition to_js (t : table) : js_data :=
  {| js_x := Some <$> d_x t;
     js_y := Some <$> d_y t;
     js_text := Some <$> d_text t;
     js_truncated := Some <$> d_truncated t;
     js_number := Some <$> d_number t;
     js_size := Some <$> d_size t;
     js_expansions := Some <$> d_expansions t |}.

(** [arr[i]] *)
Definition js_at {A} (arr : list (option A)) (i : nat) : option A :=
  match arr !! i with
  | Some c => c
  | None => None
  end.

(** ** Selection callback (lines 97-122) *)

Definition dq : string := String (Ascii.ascii_of_nat 34) EmptyString.

Definition placeholder : string := "<i>Click a bubble to see details...</i>".

(** [`${v}`] *)
Definition js_str (v : option string) : string :=
  match v with
  | Some s => s
  | None => "undefined"
  end.

Definition li (e : string) : string := "<li>" +:+ e +:+ "</li>".

Definition font12 : string :=
  " style=" +:+ dq +:+ "font-size: 12px;" +:+ dq +:+ ">".

(** The new value of [div.text] for the selection [inds]. *)
Definition callback_js (data : js_data) (inds : list nat) : string :=
  match inds with
  | [] => placeholder
  | i :: _ =>
    let expansions := js_at (js_expansions data) i in
    let text := js_at (js_text data) i in
    match expansions with
    | None | Some [] => "<b>No expansions found for:</b> " +:+ js_str text
    | Some es =>
      let expansions_html := foldl (fun html e => html +:+ li e) "" es in
      "<div" +:+ font12 +:+ js_str text +:+ "</div>" +:+
      "<ul" +:+ font12 +:+ expansions_html +:+ "</ul>"
    end
  end.

(** ** Zoom callback (lines 166-184) *)

Record range1d := { r_start : float; r_end : float }.

Record plot := {
  x_range : range1d;
  y_range : range1d;
  labelset_visible : bool
}.

Definition threshold_x : float := 5%float.
Definition threshold_y : float := 5%float.

Definition Qltb (a b : Q) : bool := negb (Qle_bool b a).

(** [p.x_range.end - p.x_range.start], a binary64 subtraction. *)
Definition range_width (p : plot) : float :=
  (r_end (x_range p) - r_start (x_range p))%float.
Definition range_height (p : plot) : float :=
  (r_end (y_range p) - r_start (y_range p))%float.

Definition zoom_callback (p : plot) : plot :=
  {| x_range := x_range p;
     y_range := y_range p;
     labelset_visible :=
       if ((range_width p <? threshold_x)%float
           && (range_height p <? threshold_y)%float)%bool
       then true else false |}.

(** The four properties the callback is attached to. *)
Inductive range_change :=
  | x_start (v : float)
  | x_end (v : float)
  | y_start (v : float)
  | y_end (v : float).

Definition set_range (p : plot) (e : range_change) : plot :=
  match e with
  | x_start v =>
    {| x_range := {| r_start := v; r_end := r_end (x_range p) |};
       y_range := y_range p; labelset_visible := labelset_visible p |}
  | x_end v =>
    {| x_range := {| r_start := r_start (x_range p); r_end := v |};
       y_range := y_range p; labelset_visible := labelset_visible p |}
  | y_start v =>
    {| x_range := x_range p;
       y_range := {| r_start := v; r_end := r_end (y_range p) |};
       labelset_visible := labelset_visible p |}
  | y_end v =>
    {| x_range := x_range p;
       y_range := {| r_start := r_start (y_range p); r_end := v |};
       labelset_visible := labelset_visible p |}
  end.

(** A range property changes, then the attached callback runs. *)
Definition on_range_change (p : plot) (e : range_change) : plot :=
  zoom_callback (set_range p e).

(** ** Threshold slider (lines 189-239) *)

Record slider := {
  s_start : nat;
  s_end : nat;
  s_value : nat;
  s_step : nat
}.

Definition min_nonzero : nat := 5.

(** [max(numbers) if numbers else 100] *)
Definition max_nonzero (numbers : list nat) : option nat :=
  match numbers with
  | [] => Some 100
  | _ :: _ => py_max numbers
  end.

Definition make_slider (numbers : list nat) : option slider :=
  hi ← max_nonzero numbers;
  Some {| s_start := min_nonzero; s_end := hi;
          s_value := min_nonzero; s_step := 1 |}.

(** [full_data['number'][i] >= threshold]; a comparison with
    [undefined] is false. *)
Definition js_ge (n : option nat) (threshold : Q) : bool :=
  match n with
  | Some n => Qle_bool threshold (Qnat n)
  | None => false
  end.

Definition js_empty : js_data :=
  {| js_x := []; js_y := []; js_text := []; js_truncated := [];
     js_number := []; js_size := []; js_expansions := [] |}.

(** The seven [push] calls of one iteration. *)
Definition push_row (full_data acc : js_data) (i : nat) : js_data :=
  {| js_x := js_x acc ++ [js_at (js_x full_data) i];
     js_y := js_y acc ++ [js_at (js_y full_data) i];
     js_text := js_text acc ++ [js_at (js_text full_data) i];
     js_truncated := js_truncated acc ++ [js_at (js_truncated full_data) i];
     js_number := js_number acc ++ [js_at (js_number full_data) i];
     js_size := js_size acc ++ [js_at (js_size full_data) i];
     js_expansions :=
       js_expansions acc ++ [js_at (js_expansions full_data) i] |}.

(** The new [source.data] after the slider moved to [threshold]. *)
Definition slider_code (threshold : Q) (full_data : js_data) : js_data :=
  foldl
    (fun acc i =>
       if js_ge (js_at (js_number full_data) i) threshold
       then push_row full_data acc i else acc)
    js_empty
    (seq 0 (length (js_x full_data))).

(** The rows of [full_data] at the positions [idxs], field by field. *)
Definition gather (full_data : js_data) (idxs : list nat) : js_data :=
  {| js_x := js_at (js_x full_data) <$> idxs;
     js_y := js_at (js_y full_data) <$> idxs;
     js_text := js_at (js_text full_data) <$> idxs;
     js_truncated := js_at (js_truncated full_data) <$> idxs;
     js_number := js_at (js_number full_data) <$> idxs;
     js_size := js_at (js_size full_data) <$> idxs;
     js_expansions := js_at (js_expansions full_data) <$> idxs |}.

(** Field-wise concatenation of two tables. *)
Definition js_app (a b : js_data) : js_data :=
  {| js_x := js_x a ++ js_x b;
     js_y := js_y a ++ js_y b;
     js_text := js_text a ++ js_text b;
     js_truncated := js_truncated a ++ js_truncated b;
     js_number := js_number a ++ js_number b;
     js_size := js_size a ++ js_size b;
     js_expansions := js_expansions a ++ js_expansions b |}.

(** Every column of a table Python built has the same length. *)
Definition rectangular (t : table) (n : nat) : Prop :=
  length (d_x t) = n /\ length (d_y t) = n /\ length (d_text t) = n /\
  length (d_truncated t) = n /\ length (d_number t) = n /\
  length (d_size t) = n /\ length (d_expansions t) = n.

(** ** Vocabulary for the Aggregator's properties *)

Section aggregator_vocabulary.
Variable inp : inputs.

(** Feature [i] passes the test of line 29: it has a label and its
    nonzero count exceeds 50. *)
Definition qualifies (nz : list nat) (i : nat) : option (string * nat) :=
  label ← feature_labels inp !! i;
  c ← nz !! i;
  if 50 <? c then Some (label, c) else None.

(** The count of feature [i] when it qualifies with label [l]. *)
Definition label_hit (nz : list nat) (l : string) (i : nat) : option nat :=
  match qualifies nz i with
  | Some (l', c) => if decide (l' = l) then Some c else None
  | None => None
  end.

(** The counts of the qualifying features of [fs] labelled [l]. *)
Definition label_counts (nz : list nat) (l : string) (fs : list nat) :
    list nat :=
  omap (label_hit nz l) fs.

(** [i] is the first feature of [fs] that qualifies with label [l]. *)
Definition first_hit (nz : list nat) (l : string) (fs : list nat)
    (pre : list nat) (i : nat) (post : list nat) : Prop :=
  fs = pre ++ i :: post /\ is_Some (label_hit nz l i) /\
  label_counts nz l pre = [].

(** [es] lists the texts of at most 10 examples, each with an
    activation above the binary64 value of 0.1 (hence above one tenth)
    for feature [i], by non-increasing activation. *)
Definition top_expansions (i : nat) (es : list string) : Prop :=
  exists js : list nat,
    Forall2 (fun j e => ind_to_question inp !! j = Some e) js es /\
    length js <= 10 /\
    Forall (fun j => j < nrows (feature_activations inp) /\
                     (3602879701896397 # 36028797018963968
                      < cell (feature_activations inp) j i)%Q /\
                     (1 # 10 < cell (feature_activations inp) j i)%Q) js /\
    forall p q jp jq, p <= q -> js !! p = Some jp -> js !! q = Some jq ->
      (cell (feature_activations inp) jq i
       <= cell (feature_activations inp) jp i)%Q.

(** Every example of the activation matrix has a text. *)
Definition rows_covered : Prop :=
  forall j, j < nrows (feature_activations inp) ->
    is_Some (ind_to_question inp !! j).

End aggregator_vocabulary.

(** The two parallel lists stay aligned and labels are not repeated. *)
Definition agg_inv (st : agg_state) : Prop :=
  length (numbers st) = length (texts st) /\ NoDup (texts st).

(** [fs] lists features by non-increasing count. *)
Definition by_count_desc (nz : list nat) (fs : list nat) : Prop :=
  forall p q a b ca cb, p <= q ->
    fs !! p = Some a -> fs !! q = Some b ->
    nz !! a = Some ca -> nz !! b = Some cb -> cb <= ca.

(** No feature of [fs] has a count above one of the counts [cs]. *)
Definition counts_above (nz : list nat) (cs : list nat) (fs : list nat) :
    Prop :=
  forall c j cj, c ∈ cs -> j ∈ fs -> nz !! j = Some cj -> cj <= c.

(** ** Vocabulary for the callbacks' properties *)

(** The positions the slider loop keeps. *)
Definition kept (threshold : Q) (full_data : js_data) : list nat :=
  List.filter (fun i => js_ge (js_at (js_number full_data) i) threshold)
    (seq 0 (length (js_x full_data))).

(** The rows of a Python-built table at the positions [idxs]. *)
Definition table_at (t : table) (idxs : list nat) : table :=
  {| d_x := omap (fun i => d_x t !! i) idxs;
     d_y := omap (fun i => d_y t !! i) idxs;
     d_text := omap (fun i => d_text t !! i) idxs;
     d_truncated := omap (fun i => d_truncated t !! i) idxs;
     d_number := omap (fun i => d_number t !! i) idxs;
     d_size := omap (fun i => d_size t !! i) idxs;
     d_expansions := omap (fun i => d_expansions t !! i) idxs |}.

(** Field by field, [a] is obtained from [b] by dropping rows. *)
Definition js_sublist (a b : js_data) : Prop :=
  js_x a `sublist_of` js_x b /\ js_y a `sublist_of` js_y b /\
  js_text a `sublist_of` js_text b /\
  js_truncated a `sublist_of` js_truncated b /\
  js_number a `sublist_of` js_number b /\
  js_size a `sublist_of` js_size b /\
  js_expansions a `sublist_of` js_expansions b.

(** A succession of range changes, each followed by the callback. *)
Definition run_changes (p : plot) (es : list range_change) : plot :=
  foldl on_range_change p es.

(** ** A small run

    104 features over 60 examples.  Features 4 to 103 are active on
    every example and fill the first 100 ranks; features 0 to 3 have
    55, 52, 53 and 40 active examples. *)

Definition sample_cell (j i : nat) : Q :=
  match i with
  | 0 => if j <? 55 then (Z.of_nat (j + 1) # 16)%Q else 0%Q
  | 1 => if j <? 3 then (1 # 2)%Q else if j <? 52 then (1 # 16)%Q else 0%Q
  | 2 => if j <? 53 then 1%Q else 0%Q
  | 3 => if j <? 40 then 1%Q else 0%Q
  | _ => 1%Q
  end.

Definition sample_activations : ndarray :=
  {| nrows := 60; ncols := 104; cell := sample_cell |}.

Definition sample_labels : gmap nat string :=
  list_to_map
    [(0, "cats"); (1, "dogs"); (2, "cats"); (3, "birds"); (7, "top");
     (200, "far")].

Definition sample_question (j : nat) : string :=
  String (Ascii.ascii_of_nat (48 + j)) EmptyString.

Definition sample_questions : gmap nat string :=
  list_to_map ((fun j => (j, sample_question j)) <$> seq 0 60).

Definition sample_coords : list (Q * Q) :=
  [(0%Q, 1%Q); ((1 # 2)%Q, 3%Q); (4%Q, 5%Q)].

Definition sample_inp : inputs :=
  {| ind_to_question := sample_questions;
     feature_activations := sample_activations;
     feature_labels := sample_labels;
     coords_2d := sample_coords |}.

(** What the loop leaves behind on the sample, and the table built
    from it. *)
Definition sample_state : agg_state :=
  {| texts := ["cats"; "dogs"];
     numbers := [55; 52];
     expansions_map :=
       <["dogs" := sample_question <$> [2; 1; 0]]>
         (<["cats" := sample_question
                         <$> [54; 53; 52; 51; 50; 49; 48; 47; 46; 45]]> ∅) |}.

(** The filter scenario: three bubbles with counts 3, 10 and 60. *)
Definition scenario_table : table :=
  {| d_x := [0%Q; 1%Q; 2%Q];
     d_y := [0%Q; 1%Q; 2%Q];
     d_text := ["a"; "b"; "c"];
     d_truncated := ["a"; "b"; "c"];
     d_number := [3; 10; 60];
     d_size := circle_size <$> [3; 10; 60];
     d_expansions := [[]; ["e"]; []] |}.

Definition sample_table : table :=
  build_table (expansions_map sample_state)
    (bind_coords sample_state sample_coords).

(** Variants of the sample that make the script stop or produce
    nothing: no labels, a matrix of only 100 columns, and a missing
    text for example 54. *)
Definition sample_inp_unlabelled : inputs :=
  {| ind_to_question := sample_questions;
     feature_activations := sample_activations;
     feature_labels := ∅;
     coords_2d := sample_coords |}.

Definition sample_inp_narrow : inputs :=
  {| ind_to_question := sample_questions;
     feature_activations :=
       {| nrows := 60; ncols := 100; cell := sample_cell |};
     feature_labels := sample_labels;
     coords_2d := sample_coords |}.

(** Labels whose largest index, 103, is a column of the matrix. *)
Definition sample_inp_tight : inputs :=
  {| ind_to_question := sample_questions;
     feature_activations := sample_activations;
     feature_labels :=
       list_to_map
         [(0, "cats"); (1, "dogs"); (2, "cats"); (3, "birds");
          (103, "last")];
     coords_2d := sample_coords |}.

Definition sample_inp_gap : inputs :=
  {| ind_to_question := delete 54 sample_questions;
     feature_activations := sample_activations;
     feature_labels := sample_labels;
     coords_2d := sample_coords |}.

(** * Properties *)

(** ** The reference [argsort] meets the interface *)

Section stable_argsort.
Context {K : Type} (le : K -> K -> Prop) (leb : K -> K -> bool).
Hypothesis leb_le : forall x y, leb x y = true -> le x y.
Hypothesis leb_total : forall x y, leb x y = true \/ leb y x = true.
Hypothesis leb_trans : forall x y z,
  leb x y = true -> leb y z = true -> leb x z = true.

Local Abbreviation R := (fun p q : nat * K => leb p.2 q.2 = true).

Lemma insert_by_perm p s : insert_by leb p s ≡ₚ p :: s.
Proof.
  induction s as [|q s IH]; simpl; [done|].
  destruct (leb p.2 q.2); [done|].
  rewrite IH. apply Permutation_swap.
Qed.

Lemma isort_by_perm s : isort_by leb s ≡ₚ s.
Proof.
  induction s as [|p s IH]; simpl; [done|].
  rewrite insert_by_perm. by f_equiv.
Qed.

Lemma insert_by_sorted p s :
  StronglySorted R s -> StronglySorted R (insert_by leb p s).
Proof.
  induction 1 as [|q s Hs IH Hq]; simpl.
  - repeat constructor.
  - destruct (leb p.2 q.2) eqn:E.
    + constructor; [by constructor|].
      constructor; [done|].
      eapply Forall_impl; [exact Hq|]. intros r Hr. simpl in *. eauto.
    + constructor; [done|].
      rewrite insert_by_perm. constructor; [|done].
      simpl. by destruct (leb_total p.2 q.2) as [?|?]; [congruence|].
Qed.

Lemma isort_by_sorted s : StronglySorted R (isort_by leb s).
Proof.
  induction s; simpl; [constructor|]. by apply insert_by_sorted.
Qed.

Lemma StronglySorted_lookup_lt {X} (Rel : relation X) (s : list X) p q x y :
  StronglySorted Rel s -> p < q ->
  s !! p = Some x -> s !! q = Some y -> Rel x y.
Proof.
  intros Hs. revert p q. induction Hs as [|z s Hs IH Hz]; intros p q Hpq Hp Hq.
  - by rewrite lookup_nil in Hp.
  - destruct q as [|q]; [lia|]. destruct p as [|p]; simpl in *.
    + simplify_eq. rewrite Forall_forall in Hz. apply Hz.
      eapply list_elem_of_lookup_2. done.
    + eapply IH; [|done..]. lia.
Qed.

Lemma stable_argsort_perm (l : list K) :
  stable_argsort leb l ≡ₚ seq 0 (length l).
Proof.
  unfold stable_argsort. rewrite isort_by_perm.
  rewrite fst_zip; [done|]. by rewrite length_seq.
Qed.

Lemma zip_seq_lookup (l : list K) a x :
  (a, x) ∈ zip (seq 0 (length l)) l -> l !! a = Some x.
Proof.
  intros [i Hi]%list_elem_of_lookup.
  apply lookup_zip_with_Some in Hi as (a' & x' & ? & Ha & Hx). simplify_eq.
  apply lookup_seq in Ha as [-> ?]. done.
Qed.

Lemma stable_argsort_sorted (l : list K) p q a b x y :
  p <= q ->
  stable_argsort leb l !! p = Some a -> stable_argsort leb l !! q = Some b ->
  l !! a = Some x -> l !! b = Some y ->
  le x y.
Proof.
  unfold stable_argsort. intros Hpq Hp Hq Hx Hy.
  apply list_lookup_fmap_Some in Hp as ([a' x'] & Hp & ?).
  apply list_lookup_fmap_Some in Hq as ([b' y'] & Hq & ?).
  simpl in *. subst a' b'.
  assert (l !! a = Some x') as Hx'.
  { apply zip_seq_lookup. rewrite <-isort_by_perm.
    by eapply list_elem_of_lookup_2. }
  assert (l !! b = Some y') as Hy'.
  { apply zip_seq_lookup. rewrite <-isort_by_perm.
    by eapply list_elem_of_lookup_2. }
  simplify_eq. apply leb_le.
  destruct (decide (p = q)) as [->|Hne].
  - simplify_eq. by destruct (leb_total x x).
  - eapply (StronglySorted_lookup_lt R _ p q (a, x) (b, y));
      [apply isort_by_sorted|lia|done..].
Qed.

Definition stable_ArgSort : ArgSort K le :=
  {| argsort := stable_argsort leb;
     argsort_perm := stable_argsort_perm;
     argsort_sorted := stable_argsort_sorted |}.

End stable_argsort.

Lemma Qle_bool_total (x y : Q) : Qle_bool x y = true \/ Qle_bool y x = true.
Proof.
  rewrite !Qle_bool_iff. destruct (Qlt_le_dec x y) as [?%Qlt_le_weak|?]; auto.
Qed.

Lemma Qle_bool_trans (x y z : Q) :
  Qle_bool x y = true -> Qle_bool y z = true -> Qle_bool x z = true.
Proof. rewrite !Qle_bool_iff. apply Qle_trans. Qed.

Lemma leb_total (x y : nat) : (x <=? y) = true \/ (y <=? x) = true.
Proof. rewrite !Nat.leb_le. lia. Qed.

Lemma leb_trans (x y z : nat) :
  (x <=? y) = true -> (y <=? z) = true -> (x <=? z) = true.
Proof. rewrite !Nat.leb_le. lia. Qed.

Definition nat_argsort : ArgSort nat le :=
  stable_ArgSort le Nat.leb (fun x y => proj1 (Nat.leb_le x y))
    leb_total leb_trans.

Definition Q_argsort : ArgSort Q Qle :=
  stable_ArgSort Qle Qle_bool Qle_bool_imp_le Qle_bool_total Qle_bool_trans.

(** ** Consequences of the [argsort] interface *)

Section argsort_facts.
Context {K : Type} {le : K -> K -> Prop} `{!ArgSort K le}.

Lemma argsort_length (l : list K) : length (argsort l) = length l.
Proof. by rewrite argsort_perm, length_seq. Qed.

Lemma argsort_NoDup (l : list K) : NoDup (argsort l).
Proof. rewrite argsort_perm. apply NoDup_seq. Qed.

Lemma argsort_elem_of (l : list K) a : a ∈ argsort l <-> a < length l.
Proof. rewrite argsort_perm, elem_of_seq. lia. Qed.

(** [argsort(l)[::-1]] lists the keys in non-increasing order. *)
Lemma reverse_argsort_sorted (l : list K) p q a b x y :
  p <= q ->
  reverse (argsort l) !! p = Some a -> reverse (argsort l) !! q = Some b ->
  l !! a = Some x -> l !! b = Some y ->
  le y x.
Proof.
  intros Hpq Hp Hq Hx Hy.
  pose proof (lookup_lt_Some _ _ _ Hp) as Hlp.
  pose proof (lookup_lt_Some _ _ _ Hq) as Hlq.
  rewrite length_reverse in Hlp, Hlq.
  rewrite reverse_lookup in Hp by done.
  rewrite reverse_lookup in Hq by done.
  eapply (argsort_sorted l _ _ b a); [|done..]. lia.
Qed.

End argsort_facts.

(** ** Strings *)

Lemma app_String a (s t : string) : String a s +:+ t = String a (s +:+ t).
Proof. reflexivity. Qed.

Lemma app_empty_l (s : string) : "" +:+ s = s.
Proof. reflexivity. Qed.

Lemma app_empty_r (s : string) : s +:+ "" = s.
Proof. induction s as [|a s IH]; [done|]. by rewrite app_String, IH. Qed.

Lemma string_app_assoc (s t u : string) : (s +:+ t) +:+ u = s +:+ (t +:+ u).
Proof. induction s as [|a s IH]; [done|]. by rewrite !app_String, IH. Qed.

(** [t[:n]] is a prefix of [t] of length [n] when [t] is long enough. *)
Lemma substring_prefix (n : nat) (t : string) :
  n <= String.length t ->
  String.length (String.substring 0 n t) = n /\
  exists rest, t = String.substring 0 n t +:+ rest.
Proof.
  revert n. induction t as [|a t IH]; intros [|n] Hn; simpl in *;
    try lia; try (split; [done|by eexists]).
  destruct (IH n) as [Hl [rest Hr]]; [lia|].
  split; [by rewrite Hl|]. exists rest. by rewrite app_String, <-Hr.
Qed.

(** The accumulating loop of lines 113-115 concatenates the items. *)
Lemma expansions_html_concat (acc : string) (es : list string) :
  foldl (fun html e => html +:+ li e) acc es
  = acc +:+ String.concat "" (li <$> es).
Proof.
  revert acc. induction es as [|e es IH]; intros acc; simpl.
  - by rewrite app_empty_r.
  - rewrite IH. clear IH. destruct es as [|e' es']; simpl.
    + by rewrite app_empty_r.
    + by rewrite string_app_assoc, app_empty_l.
Qed.

(** ** Comparisons *)

Lemma Qltb_lt (a b : Q) : Qltb a b = true <-> (a < b)%Q.
Proof.
  unfold Qltb. rewrite negb_true_iff, <-not_true_iff_false, Qle_bool_iff.
  split; [apply Qnot_le_lt|apply Qlt_not_le].
Qed.

Lemma Qgtb_gt (a b : Q) : Qgtb a b = true <-> (b < a)%Q.
Proof. apply (Qltb_lt b a). Qed.

(** The binary64 value of the literal exceeds one tenth. *)
Lemma tenth_above_decimal : (1 # 10 < tenth)%Q.
Proof. reflexivity. Qed.

Lemma Qnat_le (m n : nat) : (Qnat m <= Qnat n)%Q <-> m <= n.
Proof. unfold Qnat. rewrite <-Zle_Qle. lia. Qed.

Lemma foldl_max_spec (a : nat) (l : list nat) :
  foldl Nat.max a l ∈ a :: l /\ Forall (fun n => n <= foldl Nat.max a l) (a :: l).
Proof.
  revert a. induction l as [|b l IH]; intros a; simpl.
  - split; [by left|]. by repeat constructor.
  - destruct (IH (a `max` b)) as [Hin Hle]. clear IH. split.
    + apply elem_of_cons in Hin as [Hin|Hin]; [|by do 2 right].
      rewrite Hin. destruct (Nat.max_spec a b) as [[_ Hm]|[_ Hm]]; rewrite Hm.
      * right. left.
      * left.
    + apply Forall_cons in Hle as [H1 H2].
      repeat constructor; [lia..|done].
Qed.

Lemma py_max_spec (l : list nat) (m : nat) :
  py_max l = Some m -> m ∈ l /\ Forall (fun n => n <= m) l.
Proof.
  destruct l as [|a l]; simpl; [done|]. intros [= <-]. apply foldl_max_spec.
Qed.

Lemma py_max_is_Some (l : list nat) : l <> [] -> is_Some (py_max l).
Proof. destruct l; [done|]. by eexists. Qed.

(** ** C9: label truncation *)

(** C9. The truncated form of a label is the label itself when it has at
    most 20 characters, and otherwise its first 20 characters followed
    by the three-dot ellipsis marker. *)
Theorem truncate_text_spec (t : string) :
  (String.length t <= 20 -> truncate_text t = t) /\
  (20 < String.length t ->
   exists pre rest, t = pre +:+ rest /\ String.length pre = 20 /\
     truncate_text t = pre +:+ "...").
Proof.
  unfold truncate_text. split; intros Hlen.
  - destruct (Nat.ltb_spec 20 (String.length t)); [lia|done].
  - destruct (Nat.ltb_spec 20 (String.length t)); [|lia].
    destruct (substring_prefix 20 t) as [Hl [rest Hr]]; [lia|].
    by exists (String.substring 0 20 t), rest.
Qed.

(** ** C6: zoom-dependent label visibility *)

Lemma zoom_callback_visible (p : plot) :
  labelset_visible (zoom_callback p) = true <->
  (r_end (x_range p) - r_start (x_range p) <? 5)%float = true /\
  (r_end (y_range p) - r_start (y_range p) <? 5)%float = true.
Proof.
  simpl. unfold range_width, range_height, threshold_x, threshold_y.
  destruct (r_end (x_range p) - r_start (x_range p) <? 5)%float,
    (r_end (y_range p) - r_start (y_range p) <? 5)%float; simpl;
    intuition congruence.
Qed.

Lemma set_range_spec (p : plot) (e : range_change) :
  match e with
  | x_start v =>
    x_range (set_range p e) = {| r_start := v; r_end := r_end (x_range p) |}
    /\ y_range (set_range p e) = y_range p
  | x_end v =>
    x_range (set_range p e)
    = {| r_start := r_start (x_range p); r_end := v |}
    /\ y_range (set_range p e) = y_range p
  | y_start v =>
    x_range (set_range p e) = x_range p /\
    y_range (set_range p e) = {| r_start := v; r_end := r_end (y_range p) |}
  | y_end v =>
    x_range (set_range p e) = x_range p /\
    y_range (set_range p e)
    = {| r_start := r_start (y_range p); r_end := v |}
  end.
Proof. by destruct e. Qed.

(** C6. A change of the start or end of either axis range sets that
    one bound and leaves the other three as they were; afterwards the
    labels are visible exactly when the width [end - start] of the x
    range and the height [end - start] of the y range, as the callback
    computes them in binary64, are both strictly below 5.  A width of 4
    with a height of 3 shows the labels, a width of 6 hides them
    whatever the height. *)
Theorem zoom_labels_visible (p : plot) (e : range_change) :
  let p' := on_range_change p e in
  let width := (r_end (x_range p') - r_start (x_range p'))%float in
  let height := (r_end (y_range p') - r_start (y_range p'))%float in
  match e with
  | x_start v =>
    x_range p' = {| r_start := v; r_end := r_end (x_range p) |} /\
    y_range p' = y_range p
  | x_end v =>
    x_range p' = {| r_start := r_start (x_range p); r_end := v |} /\
    y_range p' = y_range p
  | y_start v =>
    x_range p' = x_range p /\
    y_range p' = {| r_start := v; r_end := r_end (y_range p) |}
  | y_end v =>
    x_range p' = x_range p /\
    y_range p' = {| r_start := r_start (y_range p); r_end := v |}
  end /\
  (labelset_visible p' = true <->
   (width <? 5)%float = true /\ (height <? 5)%float = true) /\
  (width = 4%float -> height = 3%float -> labelset_visible p' = true) /\
  (width = 6%float -> labelset_visible p' = false).
Proof.
  intros p' width height.
  assert (labelset_visible p' = true <->
          (width <? 5)%float = true /\ (height <? 5)%float = true) as Hiff
    by apply (zoom_callback_visible (set_range p e)).
  split; [exact (set_range_spec p e)|]. split; [exact Hiff|]. split.
  - intros E4 E3. apply Hiff. by rewrite E4, E3.
  - intros E6. apply not_true_iff_false. intros [Hlt _]%Hiff.
    by rewrite E6 in Hlt.
Qed.

(** ** C7: slider bounds *)

(** C7. The slider is always created; its lower bound is 5; its upper
    bound is 100 for an empty count list and otherwise the largest count
    of the list. *)
Theorem slider_bounds (counts : list nat) :
  exists s, make_slider counts = Some s /\
    s_start s = 5 /\
    (counts = [] -> s_end s = 100) /\
    (counts <> [] ->
     s_end s ∈ counts /\ Forall (fun n => n <= s_end s) counts).
Proof.
  unfold make_slider. destruct counts as [|n ns]; simpl.
  - eexists. split; [done|]. by repeat split.
  - eexists. split; [done|]. split; [done|]. split; [done|].
    intros _. apply foldl_max_spec.
Qed.

(** ** C8: selection panel *)

(** C8. An empty selection gives the placeholder message; a selected
    row whose expansion cell is out of range, undefined or the empty
    list gives the no-expansions message followed by the row's label; a
    selected row with a non-empty expansion list gives the label inside
    a [div] followed by a [ul] that holds, for each expansion in order,
    the expansion between [<li>] and [</li>]. *)
Theorem callback_js_spec (data : js_data) :
  callback_js data [] = "<i>Click a bubble to see details...</i>" /\
  (forall i rest label,
     js_text data !! i = Some (Some label) ->
     js_expansions data !! i = None \/
     js_expansions data !! i = Some None \/
     js_expansions data !! i = Some (Some []) ->
     callback_js data (i :: rest)
     = "<b>No expansions found for:</b> " +:+ label) /\
  (forall i rest label es,
     js_text data !! i = Some (Some label) ->
     js_expansions data !! i = Some (Some es) -> es <> [] ->
     callback_js data (i :: rest)
     = "<div style=" +:+ String (Ascii.ascii_of_nat 34) "font-size: 12px;"
       +:+ String (Ascii.ascii_of_nat 34) ">" +:+
       label +:+ "</div>" +:+
       "<ul style=" +:+ String (Ascii.ascii_of_nat 34) "font-size: 12px;"
       +:+ String (Ascii.ascii_of_nat 34) ">" +:+
       String.concat "" ((fun e => "<li>" +:+ e +:+ "</li>") <$> es)
       +:+ "</ul>").
Proof.
  split; [done|]. split.
  - intros i rest label Ht He. simpl. unfold js_at. rewrite Ht.
    by destruct He as [->|[->| ->]].
  - intros i rest label es Ht He Hne. simpl. unfold js_at. rewrite He, Ht.
    destruct es as [|e es]; [done|].
    rewrite expansions_html_concat, app_empty_l. reflexivity.
Qed.

(** ** C5: the slider filter *)

Lemma elem_of_List_filter {X} (f : X -> bool) (l : list X) (x : X) :
  x ∈ List.filter f l <-> x ∈ l /\ f x = true.
Proof. rewrite !list_elem_of_In. apply filter_In. Qed.

Lemma List_filter_all {X} (f : X -> bool) (l : list X) :
  (forall x, x ∈ l -> f x = true) -> List.filter f l = l.
Proof.
  induction l as [|x l IH]; intros Hall; simpl; [done|].
  rewrite (Hall x) by left. f_equal. apply IH. intros y Hy. apply Hall. by right.
Qed.

Lemma List_filter_seq_sorted (f : nat -> bool) (s n : nat) :
  StronglySorted lt (List.filter f (seq s n)).
Proof.
  revert s. induction n as [|n IH]; intros s; simpl; [constructor|].
  destruct (f s); [|apply IH].
  constructor; [apply IH|].
  apply Forall_forall. intros i [Hi _]%elem_of_List_filter.
  apply elem_of_seq in Hi. lia.
Qed.

Lemma js_app_empty_r (a : js_data) : js_app a js_empty = a.
Proof. destruct a. unfold js_app. simpl. by rewrite !app_nil_r. Qed.

Lemma js_app_empty_l (b : js_data) : js_app js_empty b = b.
Proof. by destruct b. Qed.

Lemma js_app_push (full_data acc : js_data) (i : nat) (idxs : list nat) :
  js_app (push_row full_data acc i) (gather full_data idxs)
  = js_app acc (gather full_data (i :: idxs)).
Proof. unfold js_app, push_row. simpl. by rewrite <-!app_assoc. Qed.

Lemma slider_loop_gather (threshold : Q) (full_data acc : js_data)
    (l : list nat) :
  foldl
    (fun acc i =>
       if js_ge (js_at (js_number full_data) i) threshold
       then push_row full_data acc i else acc) acc l
  = js_app acc
      (gather full_data
         (List.filter
            (fun i => js_ge (js_at (js_number full_data) i) threshold) l)).
Proof.
  revert acc. induction l as [|i l IH]; intros acc; simpl.
  - symmetry. apply js_app_empty_r.
  - rewrite IH.
    destruct (js_ge (js_at (js_number full_data) i) threshold); [|done].
    apply js_app_push.
Qed.

Lemma js_ge_spec (c : option nat) (threshold : Q) :
  js_ge c threshold = true <->
  exists n, c = Some n /\ (threshold <= Qnat n)%Q.
Proof.
  destruct c as [n|]; simpl.
  - rewrite Qle_bool_iff. split; [eauto|]. by intros (? & [= <-] & ?).
  - split; [done|]. by intros (? & ? & _).
Qed.

Lemma js_at_Some {X} (l : list X) (i : nat) :
  js_at (Some <$> l) i = l !! i.
Proof. unfold js_at. rewrite list_lookup_fmap. by destruct (l !! i). Qed.

Lemma js_at_all {X} (arr : list (option X)) :
  js_at arr <$> seq 0 (length arr) = arr.
Proof.
  apply list_eq. intros i. rewrite list_lookup_fmap.
  destruct (decide (i < length arr)) as [Hlt|Hge].
  - rewrite lookup_seq_lt by done. simpl. unfold js_at.
    destruct (lookup_lt_is_Some_2 arr i Hlt) as [c Hc]. by rewrite Hc.
  - rewrite lookup_seq_ge by lia. simpl.
    symmetry. apply lookup_ge_None. lia.
Qed.

Lemma gather_all (t : table) (n : nat) :
  rectangular t n -> gather (to_js t) (seq 0 n) = to_js t.
Proof.
  intros (Hx & Hy & Ht & Htr & Hn & Hs & He).
  unfold gather, to_js. simpl. f_equal.
  all: match goal with
       | |- js_at (Some <$> ?l) <$> _ = _ =>
         rewrite <-(js_at_all (Some <$> l)) at 2; rewrite length_fmap; congruence
       end.
Qed.

(** The slider at a value no count falls below keeps the whole table. *)
Lemma slider_code_keeps_all (threshold : Q) (t : table) (n : nat) :
  rectangular t n ->
  Forall (fun c => (threshold <= Qnat c)%Q) (d_number t) ->
  slider_code threshold (to_js t) = to_js t.
Proof.
  intros Hrect Hall. unfold slider_code. rewrite slider_loop_gather.
  rewrite js_app_empty_l.
  pose proof Hrect as (Hx & _ & _ & _ & Hn & _).
  simpl. rewrite length_fmap, Hx, List_filter_all; [by apply gather_all|].
  intros i [_ Hi]%elem_of_seq. apply js_ge_spec.
  rewrite js_at_Some.
  destruct (lookup_lt_is_Some_2 (d_number t) i) as [c Hc]; [lia|].
  exists c. split; [done|]. by eapply Forall_lookup_1 in Hall.
Qed.

(** C5. The slider rebuilds the working table from the rows of the full
    table whose count is at least the slider value: the kept positions
    are increasing (original order), they are exactly the positions with
    a count not below the value, and each of the seven fields is read at
    those same positions.  With counts 3, 10, 60 and value 10 the rows
    at positions 1 and 2 remain, counts 10 and 60 in that order. *)
Theorem slider_code_filter (threshold : Q) (full_data : js_data) :
  (exists idxs,
     slider_code threshold full_data = gather full_data idxs /\
     StronglySorted lt idxs /\
     forall i, i ∈ idxs <->
       i < length (js_x full_data) /\
       exists c, js_at (js_number full_data) i = Some c /\
                 (threshold <= Qnat c)%Q) /\
  (forall t, rectangular t 3 -> d_number t = [3; 10; 60] ->
     slider_code 10 (to_js t) = gather (to_js t) [1; 2] /\
     js_number (slider_code 10 (to_js t)) = [Some 10; Some 60]).
Proof.
  split.
  - eexists. split; [|split].
    + unfold slider_code. rewrite slider_loop_gather.
      apply js_app_empty_l.
    + apply List_filter_seq_sorted.
    + intros i. rewrite elem_of_List_filter, elem_of_seq, js_ge_spec.
      intuition lia.
  - intros t (Hx & _ & _ & _ & _) Hn.
    assert (slider_code 10 (to_js t) = gather (to_js t) [1; 2]) as E.
    { unfold slider_code. rewrite slider_loop_gather.
      rewrite js_app_empty_l. simpl. by rewrite length_fmap, Hx, Hn. }
    split; [done|]. rewrite E. simpl. by rewrite Hn.
Qed.

(** ** The aggregation loop *)

Lemma index_Some (label : string) (l : list string) (k : nat) :
  index label l = Some k -> l !! k = Some label.
Proof.
  revert k. induction l as [|t l IH]; intros k; simpl; [done|].
  case_decide as E; [by intros [= <-]; subst|].
  destruct (index label l) as [k'|]; simpl; [|done].
  intros [= <-]. by apply IH.
Qed.

Lemma index_is_Some (label : string) (l : list string) :
  label ∈ l -> is_Some (index label l).
Proof.
  induction l as [|t l IH]; [by intros ?%elem_of_nil|].
  intros Hin. simpl. case_decide as E; [by eexists|].
  apply elem_of_cons in Hin as [->|Hin]; [done|].
  destruct (IH Hin) as [k ->]. by eexists.
Qed.

Lemma List_filter_lookup_mono {X} (f : X -> bool) (l : list X) p q a b :
  p <= q ->
  List.filter f l !! p = Some a -> List.filter f l !! q = Some b ->
  exists p' q', p' <= q' /\ l !! p' = Some a /\ l !! q' = Some b.
Proof.
  revert p q. induction l as [|x l IH]; intros p q Hpq Hp Hq; simpl in *.
  - by rewrite lookup_nil in Hp.
  - destruct (f x).
    + destruct p as [|p], q as [|q]; simpl in *; try lia.
      * simplify_eq. by exists 0, 0.
      * simplify_eq.
        apply list_elem_of_lookup_2, elem_of_List_filter in Hq as [Hq _].
        apply list_elem_of_lookup in Hq as [q' Hq'].
        exists 0, (S q'). split; [lia|done].
      * destruct (IH p q) as (p' & q' & ? & ? & ?); [lia|done..|].
        exists (S p'), (S q'). split; [lia|done].
    + destruct (IH p q) as (p' & q' & ? & ? & ?); [lia|done..|].
      exists (S p'), (S q'). split; [lia|done].
Qed.

Section aggregator_facts.
Context `{!ArgSort nat le} `{!ArgSort Q Qle}.
Variable inp : inputs.
Variable nz : list nat.

Local Abbreviation A := (feature_activations inp).

Lemma qualifies_gt50 i l c : qualifies inp nz i = Some (l, c) -> 50 < c.
Proof.
  unfold qualifies. destruct (feature_labels inp !! i); simpl; [|done].
  destruct (nz !! i) as [c'|]; simpl; [|done].
  destruct (Nat.ltb_spec 50 c'); [|done]. by intros [= _ <-].
Qed.

Lemma qualifies_label i l c :
  qualifies inp nz i = Some (l, c) ->
  feature_labels inp !! i = Some l /\ nz !! i = Some c.
Proof.
  unfold qualifies. destruct (feature_labels inp !! i); simpl; [|done].
  destruct (nz !! i) as [c'|]; simpl; [|done].
  destruct (50 <? c'); [|done]. by intros [= <- <-].
Qed.

Lemma label_hit_Some l i c :
  label_hit inp nz l i = Some c <-> qualifies inp nz i = Some (l, c).
Proof.
  unfold label_hit. destruct (qualifies inp nz i) as [[l' c']|]; [|done].
  case_decide; split; intros E; simplify_eq; done.
Qed.

Lemma label_counts_app l fs1 fs2 :
  label_counts inp nz l (fs1 ++ fs2)
  = label_counts inp nz l fs1 ++ label_counts inp nz l fs2.
Proof. apply omap_app. Qed.

Lemma label_counts_nil l fs :
  label_counts inp nz l fs = [] <->
  forall i, i ∈ fs -> label_hit inp nz l i = None.
Proof.
  unfold label_counts. induction fs as [|i fs IH]; simpl.
  - split; [by intros _ ? ?%elem_of_nil|done].
  - destruct (label_hit inp nz l i) eqn:E.
    + split; [done|]. intros Hall. specialize (Hall i). rewrite E in Hall.
      by discriminate Hall; left.
    + rewrite IH. split.
      * intros Hall j [->|Hj]%elem_of_cons; auto.
      * intros Hall j Hj. apply Hall. by right.
Qed.

(** What one iteration does, when it does not abort. *)
Lemma visit_cases st i st' :
  visit inp nz st i = Some st' ->
  (qualifies inp nz i = None /\ st' = st) \/
  (exists l c es,
     qualifies inp nz i = Some (l, c) /\ (l ∉ texts st) /\
     expansions_of inp i = Some es /\
     st' = {| texts := texts st ++ [l];
              numbers := numbers st ++ [c];
              expansions_map := <[l := es]> (expansions_map st) |}) \/
  (exists l c idx old,
     qualifies inp nz i = Some (l, c) /\
     index l (texts st) = Some idx /\ numbers st !! idx = Some old /\
     st' = {| texts := texts st;
              numbers := <[idx := old `max` c]> (numbers st);
              expansions_map := expansions_map st |}).
Proof.
  unfold visit, qualifies.
  destruct (feature_labels inp !! i) as [l|]; simpl;
    [|intros [= <-]; by left].
  destruct (nz !! i) as [c|]; simpl; [|done].
  destruct (50 <? c); [|intros [= <-]; by left].
  case_bool_decide as Hin.
  - destruct (index l (texts st)) as [idx|] eqn:Hidx; simpl; [|done].
    destruct (numbers st !! idx) as [old|] eqn:Hold; simpl; [|done].
    intros [= <-]. right. right. by exists l, c, idx, old.
  - destruct (expansions_of inp i) as [es|] eqn:Hes; simpl; [|done].
    intros [= <-]. right. left. by exists l, c, es.
Qed.

Lemma loop_app fs1 fs2 st :
  aggregate_loop inp nz (fs1 ++ fs2) st
  = aggregate_loop inp nz fs1 st ≫= aggregate_loop inp nz fs2.
Proof.
  revert st. induction fs1 as [|i fs1 IH]; intros st; simpl; [done|].
  destruct (visit inp nz st i); simpl; [apply IH|done].
Qed.

Lemma visit_inv st i st' :
  agg_inv st -> visit inp nz st i = Some st' -> agg_inv st'.
Proof.
  intros [Hlen Hnd] Hv.
  destruct (visit_cases _ _ _ Hv)
    as [[_ ->]|[(l & c & es & _ & Hnin & _ & ->)
               |(l & c & idx & old & _ & _ & _ & ->)]].
  - done.
  - split; simpl.
    + rewrite !length_app. simpl. lia.
    + apply NoDup_app. split; [done|]. split; [|apply NoDup_singleton].
      intros x Hx Heq%list_elem_of_singleton. by subst x.
  - split; simpl; [by rewrite length_insert|done].
Qed.

(** The bubbles that exist before a run of the loop keep their position
    and expansions; their count is raised to the largest count of the
    qualifying features of the run that carry their label. *)
Lemma loop_existing fs st st' :
  agg_inv st -> aggregate_loop inp nz fs st = Some st' ->
  agg_inv st' /\ texts st `prefix_of` texts st' /\
  forall k l, texts st !! k = Some l ->
    expansions_map st' !! l = expansions_map st !! l /\
    exists old, numbers st !! k = Some old /\
      numbers st' !! k
      = Some (old `max` max_list (label_counts inp nz l fs)).
Proof.
  revert st. induction fs as [|i fs IH]; intros st Hinv Hloop; simpl in *.
  - assert (st' = st) as -> by congruence.
    split; [done|]. split; [done|]. intros k l Hk.
    split; [done|]. destruct Hinv as [Hlen _].
    destruct (lookup_lt_is_Some_2 (numbers st) k) as [old Hold].
    { rewrite Hlen. by eapply lookup_lt_Some. }
    exists old. split; [done|]. rewrite Hold. f_equal. simpl. lia.
  - destruct (visit inp nz st i) as [st1|] eqn:Hv; simpl in *; [|done].
    pose proof (visit_inv _ _ _ Hinv Hv) as Hinv1.
    destruct (IH st1 Hinv1 Hloop) as (Hinv' & Hpre & Hkeep).
    split; [done|].
    destruct Hinv as [Hlen Hnd].
    destruct (visit_cases _ _ _ Hv)
      as [[Hq ->]|[(l' & c & es & Hq & Hnin & _ & ->)
                 |(l' & c & idx & old' & Hq & Hidx & Hold' & ->)]];
      simpl in *.
    + split; [done|]. intros k l Hk.
      destruct (Hkeep k l Hk) as (He & old & Hold & Hnew).
      split; [done|]. exists old. split; [done|].
      unfold label_hit. by rewrite Hq.
    + split; [etrans; [|exact Hpre]; by apply prefix_app_r|].
      intros k l Hk.
      assert (l <> l') as Hne.
      { intros ->. apply Hnin. by eapply list_elem_of_lookup_2. }
      pose proof (lookup_lt_Some _ _ _ Hk) as Hlt.
      destruct (Hkeep k l) as (He & old & Hold & Hnew).
      { by rewrite lookup_app_l. }
      rewrite lookup_insert_ne in He by done. split; [done|].
      rewrite lookup_app_l in Hold by lia.
      exists old. split; [done|]. rewrite Hnew.
      unfold label_hit. rewrite Hq. by rewrite decide_False.
    + split; [done|]. intros k l Hk.
      destruct (Hkeep k l Hk) as (He & old & Hold & Hnew).
      split; [done|].
      apply index_Some in Hidx.
      destruct (decide (l' = l)) as [->|Hne].
      * assert (idx = k) as -> by (by eapply NoDup_lookup).
        rewrite list_lookup_insert_eq in Hold
          by (by eapply lookup_lt_Some).
        simplify_eq. exists old'. split; [done|]. rewrite Hnew.
        unfold label_hit. rewrite Hq, decide_True by done.
        f_equal. simpl. lia.
      * assert (idx <> k) as Hik by (intros ->; congruence).
        rewrite list_lookup_insert_ne in Hold by done.
        exists old. split; [done|]. rewrite Hnew.
        unfold label_hit. by rewrite Hq, decide_False.
Qed.

(** Every bubble carries the label of a qualifying feature of the run. *)
Lemma loop_texts_sound fs st st' l :
  aggregate_loop inp nz fs st = Some st' -> l ∈ texts st' ->
  l ∈ texts st \/ exists i, i ∈ fs /\ is_Some (label_hit inp nz l i).
Proof.
  revert st. induction fs as [|i fs IH]; intros st Hloop Hin; simpl in *.
  - left. congruence.
  - destruct (visit inp nz st i) as [st1|] eqn:Hv; simpl in *; [|done].
    destruct (IH st1 Hloop Hin) as [Hin1|(j & Hj & Hhit)];
      [|right; exists j; split; [by right|done]].
    destruct (visit_cases _ _ _ Hv)
      as [[_ ->]|[(l' & c & es & Hq & _ & _ & ->)
                 |(l' & c & idx & old' & _ & _ & _ & ->)]];
      simpl in *; [by left| |by left].
    apply elem_of_app in Hin1 as [?|Heq%list_elem_of_singleton]; [by left|].
    subst l'.
    right. exists i. split; [by left|].
    exists c. by apply label_hit_Some.
Qed.

(** The first qualifying feature of a fresh label creates its bubble at
    the end of the list; the rest of the run only raises the count. *)
Lemma loop_created fs pre i post l st st' :
  agg_inv st -> (l ∉ texts st) ->
  first_hit inp nz l fs pre i post ->
  aggregate_loop inp nz fs st = Some st' ->
  exists st1 es,
    aggregate_loop inp nz pre st = Some st1 /\
    expansions_of inp i = Some es /\
    texts st' !! length (texts st1) = Some l /\
    numbers st' !! length (texts st1)
    = Some (max_list (label_counts inp nz l fs)) /\
    expansions_map st' !! l = Some es.
Proof.
  intros Hinv Hnin (-> & [c Hhit] & Hpre) Hloop.
  rewrite loop_app in Hloop.
  destruct (aggregate_loop inp nz pre st) as [st1|] eqn:Hl1;
    simpl in Hloop; [|done].
  destruct (visit inp nz st1 i) as [st2|] eqn:Hv; simpl in Hloop; [|done].
  destruct (loop_existing _ _ _ Hinv Hl1) as (Hinv1 & _ & _).
  assert (l ∉ texts st1) as Hnin1.
  { intros [?|(j & Hj & [? Hjh])]%(loop_texts_sound _ _ _ _ Hl1); [done|].
    apply label_counts_nil with (i := j) in Hpre; [congruence|done]. }
  apply label_hit_Some in Hhit as Hq.
  destruct (visit_cases _ _ _ Hv)
    as [[Hq' _]|[(l' & c' & es & Hq' & _ & Hes & ->)
               |(l' & c' & idx & old' & Hq' & Hidx & _ & _)]];
    [congruence| |].
  2:{ rewrite Hq in Hq'. simplify_eq.
      apply index_Some in Hidx. destruct Hnin1.
      by eapply list_elem_of_lookup_2. }
  rewrite Hq in Hq'. simplify_eq.
  pose proof (visit_inv _ _ _ Hinv1 Hv) as Hinv2.
  destruct (loop_existing _ _ _ Hinv2 Hloop) as (_ & Hpfx & Hkeep).
  simpl in *.
  assert ((texts st1 ++ [l']) !! length (texts st1) = Some l') as Hk.
  { by rewrite lookup_app_r, Nat.sub_diag by lia. }
  destruct (Hkeep _ _ Hk) as (He & old & Hold & Hnew).
  destruct Hinv1 as [Hlen1 _].
  rewrite lookup_app_r, <-Hlen1, Nat.sub_diag in Hold by lia.
  simpl in Hold. simplify_eq.
  exists st1, es. split; [done|]. split; [done|]. split; [|split].
  - by eapply prefix_lookup_Some.
  - rewrite Hnew. f_equal.
    rewrite label_counts_app, Hpre. simpl. by rewrite Hhit.
  - by rewrite He, lookup_insert_eq.
Qed.

Lemma first_hit_exists fs l j :
  j ∈ fs -> is_Some (label_hit inp nz l j) ->
  exists pre i post, first_hit inp nz l fs pre i post.
Proof.
  induction fs as [|x fs IH]; [by intros ?%elem_of_nil|].
  intros Hin Hhit.
  destruct (label_hit inp nz l x) as [c|] eqn:Hx.
  - exists [], x, fs. split; [done|]. split; [by rewrite Hx|done].
  - apply elem_of_cons in Hin as [->|Hin].
    { rewrite Hx in Hhit. by destruct Hhit. }
    destruct (IH Hin Hhit) as (pre & i & post & -> & ? & Hpre).
    exists (x :: pre), i, post. split; [done|]. split; [done|].
    unfold label_counts in *. simpl. by rewrite Hx.
Qed.

(** A count, once stored, exceeds 50. *)
Lemma loop_numbers_gt50 fs st st' :
  Forall (fun c => 50 < c) (numbers st) ->
  aggregate_loop inp nz fs st = Some st' ->
  Forall (fun c => 50 < c) (numbers st').
Proof.
  revert st. induction fs as [|i fs IH]; intros st Hall Hloop; simpl in *.
  - congruence.
  - destruct (visit inp nz st i) as [st1|] eqn:Hv; simpl in *; [|done].
    apply (IH st1); [|done].
    destruct (visit_cases _ _ _ Hv)
      as [[_ ->]|[(l' & c & es & Hq & _ & _ & ->)
                 |(l' & c & idx & old' & Hq & _ & Hold & ->)]];
      simpl; [done| |].
    + apply Forall_app. split; [done|].
      repeat constructor. by eapply qualifies_gt50.
    + apply Forall_insert; [done|].
      apply qualifies_gt50 in Hq. lia.
Qed.

(** *** Expansions *)

Lemma column_lookup i j :
  j < nrows A -> column A i !! j = Some (cell A j i).
Proof.
  intros Hj. unfold column. rewrite list_lookup_fmap.
  by rewrite lookup_seq_lt.
Qed.

Lemma column_length i : length (column A i) = nrows A.
Proof. unfold column. by rewrite length_fmap, length_seq. Qed.

Lemma top_examples_lt i j : j ∈ top_examples inp i -> j < nrows A.
Proof.
  unfold top_examples. intros (k & Hk & _)%elem_of_take.
  apply list_elem_of_lookup_2, elem_of_reverse, argsort_elem_of in Hk.
  by rewrite column_length in Hk.
Qed.

Lemma expansions_of_spec i es :
  expansions_of inp i = Some es -> top_expansions inp i es.
Proof.
  unfold expansions_of. intros Hm%mapM_Some.
  exists (expansion_rows inp i). split; [done|]. split; [|split].
  - unfold expansion_rows.
    etrans; [apply filter_length_le|].
    unfold top_examples. rewrite length_take. lia.
  - apply Forall_forall. intros j [Hj Hf]%elem_of_List_filter.
    split; [by apply (top_examples_lt i)|].
    apply Qgtb_gt in Hf. split; [exact Hf|].
    by apply Qlt_trans with tenth; [apply tenth_above_decimal|].
  - intros p q jp jq Hpq Hp Hq.
    destruct (List_filter_lookup_mono _ _ _ _ _ _ Hpq Hp Hq)
      as (p' & q' & Hpq' & Hp' & Hq').
    assert (jp < nrows A) as Hjp
      by (apply (top_examples_lt i); by eapply list_elem_of_lookup_2).
    assert (jq < nrows A) as Hjq
      by (apply (top_examples_lt i); by eapply list_elem_of_lookup_2).
    unfold top_examples in *.
    apply lookup_take_Some in Hp' as [Hp' _].
    apply lookup_take_Some in Hq' as [Hq' _].
    eapply (reverse_argsort_sorted (column A i) p' q' jp jq);
      [done..|by apply column_lookup|by apply column_lookup].
Qed.

(** *** The loop does not abort on well-formed inputs *)

Lemma expansions_of_is_Some i :
  rows_covered inp -> is_Some (expansions_of inp i).
Proof.
  intros Hcov. apply mapM_is_Some, Forall_forall.
  intros j [Hj _]%elem_of_List_filter. apply Hcov.
  by apply (top_examples_lt i).
Qed.

Lemma visit_is_Some st i :
  rows_covered inp -> agg_inv st -> i < length nz ->
  is_Some (visit inp nz st i).
Proof.
  intros Hcov [Hlen _] Hi. unfold visit.
  destruct (feature_labels inp !! i) as [l|]; [|by eexists].
  destruct (lookup_lt_is_Some_2 nz i Hi) as [c ->]. simpl.
  destruct (50 <? c); [|by eexists].
  case_bool_decide as Hin.
  - destruct (index_is_Some _ _ Hin) as [idx Hidx]. rewrite Hidx. simpl.
    apply index_Some, lookup_lt_Some in Hidx.
    destruct (lookup_lt_is_Some_2 (numbers st) idx) as [old ->]; [lia|].
    by eexists.
  - destruct (expansions_of_is_Some i Hcov) as [es ->]. by eexists.
Qed.

Lemma loop_is_Some fs st :
  rows_covered inp -> agg_inv st -> Forall (fun i => i < length nz) fs ->
  is_Some (aggregate_loop inp nz fs st).
Proof.
  intros Hcov. revert st.
  induction fs as [|i fs IH]; intros st Hinv Hall; simpl; [by eexists|].
  apply Forall_cons in Hall as [Hi Hall].
  destruct (visit_is_Some st i Hcov Hinv Hi) as [st1 Hv]. rewrite Hv. simpl.
  apply IH; [|done]. by eapply visit_inv.
Qed.

End aggregator_facts.

(** ** Counts and ranking *)

Lemma sum_indicator {X Y} (f : Y -> bool) (g : X -> Y) (l : list X) :
  sum_list ((fun a => if f a then 1 else 0) <$> (g <$> l))
  = length (List.filter (fun x => f (g x)) l).
Proof.
  induction l as [|x l IH]; simpl; [done|].
  destruct (f (g x)); simpl; rewrite <-IH; reflexivity.
Qed.

Lemma List_filter_NoDup {X} (f : X -> bool) (l : list X) :
  NoDup l -> NoDup (List.filter f l).
Proof.
  induction 1 as [|x l Hx Hl IH]; simpl; [constructor|].
  destruct (f x); [|done]. constructor; [|done].
  by intros [? _]%elem_of_List_filter.
Qed.

Lemma nonzero_features_length (A : ndarray) (m : nat) :
  length (nonzero_features A m) = m `min` ncols A.
Proof. unfold nonzero_features. by rewrite length_fmap, length_seq. Qed.

Lemma nonzero_features_lookup (A : ndarray) (m i : nat) :
  i < m `min` ncols A ->
  nonzero_features A m !! i
  = Some (length (List.filter (fun j => Qgtb (cell A j i) 0)
                    (seq 0 (nrows A)))).
Proof.
  intros Hi. unfold nonzero_features. rewrite list_lookup_fmap.
  rewrite lookup_seq_lt by done. simpl. f_equal.
  unfold column. apply (sum_indicator (fun a => Qgtb a 0)).
Qed.

Lemma max_key_spec (labels : gmap nat string) (m : nat) :
  max_key labels = Some m ->
  is_Some (labels !! m) /\ forall k, is_Some (labels !! k) -> k <= m.
Proof.
  intros [Hin Hle]%py_max_spec. split.
  - apply list_elem_of_fmap in Hin as ([k v] & -> & Hkv).
    apply elem_of_map_to_list in Hkv. by eexists.
  - intros k [v Hk]. rewrite Forall_forall in Hle. apply Hle.
    apply list_elem_of_fmap. exists (k, v). split; [done|].
    by apply elem_of_map_to_list.
Qed.

Lemma max_key_is_Some (labels : gmap nat string) :
  labels <> ∅ -> is_Some (max_key labels).
Proof.
  intros Hne. apply py_max_is_Some. intros Hnil%fmap_nil_inv.
  by apply map_to_list_empty_iff in Hnil.
Qed.

Section pipeline_facts.
Context `{!ArgSort nat le} `{!ArgSort Q Qle}.
Variable inp : inputs.

Local Abbreviation A := (feature_activations inp).

Lemma top_features_perm (nz : list nat) :
  top_features nz ≡ₚ seq 0 (length nz).
Proof. unfold top_features. rewrite reverse_Permutation. apply argsort_perm. Qed.

Lemma iterated_lt (nz : list nat) :
  Forall (fun i => i < length nz) (iterated nz).
Proof.
  apply Forall_forall. intros i [k Hk]%list_elem_of_lookup.
  unfold iterated in Hk. rewrite lookup_drop in Hk.
  apply list_elem_of_lookup_2 in Hk. rewrite top_features_perm in Hk.
  apply elem_of_seq in Hk. lia.
Qed.

Lemma agg_init_inv : agg_inv agg_init.
Proof. split; [done|]. simpl. constructor. Qed.

(** The script reaches the end of the loop whenever the label mapping
    is non-empty and every example has a text. *)
Lemma aggregator_is_Some :
  feature_labels inp <> ∅ -> rows_covered inp ->
  is_Some (aggregator inp).
Proof.
  intros [m Hm]%max_key_is_Some Hcov. unfold aggregator. rewrite Hm. simpl.
  apply loop_is_Some; [done|apply agg_init_inv|apply iterated_lt].
Qed.

Lemma aggregator_unfold (st : agg_state) :
  aggregator inp = Some st ->
  exists m, max_key (feature_labels inp) = Some m /\
    aggregate_loop inp (nonzero_features A m)
      (iterated (nonzero_features A m)) agg_init = Some st.
Proof.
  unfold aggregator.
  destruct (max_key (feature_labels inp)) as [m|]; simpl; [|done]. eauto.
Qed.

Lemma aggregator_inv (st : agg_state) :
  aggregator inp = Some st ->
  agg_inv st /\ Forall (fun c => 50 < c) (numbers st).
Proof.
  intros (m & _ & Hloop)%aggregator_unfold. split.
  - by destruct (loop_existing _ _ _ _ _ agg_init_inv Hloop).
  - eapply loop_numbers_gt50; [|done]. constructor.
Qed.

(** C1. With [m] the largest labelled feature index, the labelled
    column range is the columns below [min m ncols].  For each of them
    the Aggregator computes the number of examples with a strictly
    positive activation; [top_features] is a permutation of the whole
    range listed by non-increasing count; the loop runs over the entries
    of that ranking from rank 100 on and over nothing else, so no
    feature among the first 100 ranks is visited and every bubble comes
    from a feature of rank 100 or more; and on inputs where every
    example has a text the Aggregator does produce its result. *)
Theorem aggregator_ranking (m : nat) :
  max_key (feature_labels inp) = Some m ->
  let width := m `min` ncols A in
  let nz := nonzero_features A m in
  let top := top_features nz in
  (is_Some (feature_labels inp !! m) /\
   forall k, is_Some (feature_labels inp !! k) -> k <= m) /\
  length nz = width /\
  (forall i, i < width ->
     exists js, NoDup js /\
       (forall j, j ∈ js <-> j < nrows A /\ (0 < cell A j i)%Q) /\
       nz !! i = Some (length js)) /\
  top ≡ₚ seq 0 width /\
  (forall p q a b ca cb, p <= q ->
     top !! p = Some a -> top !! q = Some b ->
     nz !! a = Some ca -> nz !! b = Some cb -> cb <= ca) /\
  aggregator inp = aggregate_loop inp nz (iterated nz) agg_init /\
  (forall k, iterated nz !! k = top !! (100 + k)) /\
  (forall f, f ∈ take 100 top -> f ∉ iterated nz) /\
  (forall st l, aggregator inp = Some st -> l ∈ texts st ->
     exists k i c, 100 <= k /\ top !! k = Some i /\
       qualifies inp nz i = Some (l, c)) /\
  (rows_covered inp -> is_Some (aggregator inp)).
Proof.
  intros Hm width nz top.
  assert (length nz = width) as Hlen by apply nonzero_features_length.
  assert (top ≡ₚ seq 0 width) as Hperm
    by (rewrite <-Hlen; apply top_features_perm).
  assert (aggregator inp = aggregate_loop inp nz (iterated nz) agg_init)
    as Hagg by (unfold aggregator; by rewrite Hm).
  split; [by apply max_key_spec|]. split; [done|]. split; [|split; [done|]].
  { intros i Hi.
    exists (List.filter (fun j => Qgtb (cell A j i) 0) (seq 0 (nrows A))).
    split; [apply List_filter_NoDup, NoDup_seq|]. split.
    - intros j. rewrite elem_of_List_filter, elem_of_seq, Qgtb_gt.
      intuition lia.
    - by apply nonzero_features_lookup. }
  split.
  { intros p q a b ca cb Hpq Hp Hq Ha Hb.
    by apply (reverse_argsort_sorted nz p q a b ca cb). }
  split; [done|]. split; [intros k; apply lookup_drop|]. split; [|split].
  - intros f Hf Hf'.
    assert (NoDup (take 100 top ++ drop 100 top)) as Hnd.
    { rewrite take_drop, Hperm. apply NoDup_seq. }
    apply NoDup_app in Hnd as (_ & Hdisj & _). by apply (Hdisj f).
  - intros st l Hst Hl. rewrite Hagg in Hst.
    destruct (loop_texts_sound _ _ _ _ _ _ Hst Hl)
      as [Hnil|(i & Hi & c & Hc)]; [by apply elem_of_nil in Hnil|].
    apply list_elem_of_lookup in Hi as [k Hk].
    unfold iterated in Hk. rewrite lookup_drop in Hk.
    exists (100 + k), i, c. split; [lia|]. split; [done|].
    by apply label_hit_Some.
  - intros Hcov. apply aggregator_is_Some; [|done].
    intros Hemp. rewrite Hemp in Hm. by vm_compute in Hm.
Qed.

(** The slice [[:m]] stops before column [m]: the feature with the
    largest labelled index is itself never ranked. *)
Remark max_key_feature_not_ranked (m : nat) :
  max_key (feature_labels inp) = Some m ->
  m ∉ top_features (nonzero_features A m).
Proof.
  intros _. rewrite top_features_perm, nonzero_features_length, elem_of_seq.
  lia.
Qed.

(** C3. Take any label carried by at least one qualifying feature of
    the iteration (so in particular by two or more).  It has exactly
    one bubble; the bubble sits at the position it was appended at when
    the first such feature was met, its expansions are the ones computed
    from that first feature, and its count is the largest nonzero count
    among all the qualifying features that carry the label. *)
Theorem dedup_keeps_max (m : nat) (st : agg_state) (l : string) (j : nat) :
  max_key (feature_labels inp) = Some m ->
  let nz := nonzero_features A m in
  aggregator inp = Some st ->
  j ∈ iterated nz -> is_Some (label_hit inp nz l j) ->
  exists pre i post k st1 es,
    first_hit inp nz l (iterated nz) pre i post /\
    aggregate_loop inp nz pre agg_init = Some st1 /\
    k = length (texts st1) /\
    texts st !! k = Some l /\
    (forall k', texts st !! k' = Some l -> k' = k) /\
    numbers st !! k
    = Some (max_list (label_counts inp nz l (iterated nz))) /\
    Forall (fun c => c <= max_list (label_counts inp nz l (iterated nz)))
      (label_counts inp nz l (iterated nz)) /\
    max_list (label_counts inp nz l (iterated nz))
      ∈ label_counts inp nz l (iterated nz) /\
    expansions_of inp i = Some es /\
    expansions_map st !! l = Some es.
Proof.
  intros Hm nz Hst Hj Hhit.
  unfold aggregator in Hst. rewrite Hm in Hst. simpl in Hst. fold nz in Hst.
  destruct (first_hit_exists inp nz _ _ _ Hj Hhit) as (pre & i & post & Hfirst).
  destruct (loop_created inp nz _ _ _ _ _ _ _ agg_init_inv
              (not_elem_of_nil l) Hfirst Hst)
    as (st1 & es & Hl1 & Hes & Ht & Hn & He).
  destruct (loop_existing _ _ _ _ _ agg_init_inv Hst) as ([_ Hnd] & _ & _).
  exists pre, i, post, (length (texts st1)), st1, es.
  split; [done|]. split; [done|]. split; [done|]. split; [done|].
  split; [intros k' Hk'; by eapply NoDup_lookup|].
  split; [done|].
  assert (label_counts inp nz l (iterated nz) <> []) as Hne.
  { intros Hnil. destruct Hhit as [c Hc].
    apply label_counts_nil with (i := j) in Hnil; [congruence|done]. }
  split; [|split; [by apply max_list_elem_of|done]].
  apply Forall_forall. intros c Hc. by apply max_list_elem_of_le.
Qed.

End pipeline_facts.

(** ** Binding and the full table *)

Section table_facts.
Context `{!ArgSort nat le} `{!ArgSort Q Qle}.
Variable inp : inputs.

Local Abbreviation A := (feature_activations inp).

Lemma bind_coords_spec (st : agg_state) (coords : list (Q * Q)) :
  agg_inv st ->
  let b := bind_coords st coords in
  let n := length (texts st) `min` length coords in
  (length (b_texts b) = n /\ length (b_numbers b) = n /\
   length (b_x_coords b) = n /\ length (b_y_coords b) = n) /\
  (b_texts b = take n (texts st) /\ b_numbers b = take n (numbers st) /\
   b_x_coords b = take n coords.*1 /\ b_y_coords b = take n coords.*2) /\
  (b_texts b `prefix_of` texts st /\ b_numbers b `prefix_of` numbers st /\
   b_x_coords b `prefix_of` coords.*1 /\ b_y_coords b `prefix_of` coords.*2).
Proof.
  intros [Hlen _] b n.
  unfold b, bind_coords. simpl. rewrite !length_fmap. fold n.
  split; [|split; [done|]].
  - rewrite !length_take, !length_fmap, Hlen. unfold n. lia.
  - repeat split; apply prefix_take.
Qed.

(** C2. After binding, the text, count, x and y lists all have the
    length [min (len texts) (len coords)], and each is the prefix of
    that length of its value before binding. *)
Theorem binding_truncates (st : agg_state) (coords : list (Q * Q)) :
  aggregator inp = Some st ->
  let b := bind_coords st coords in
  let n := length (texts st) `min` length coords in
  (length (b_texts b) = n /\ length (b_numbers b) = n /\
   length (b_x_coords b) = n /\ length (b_y_coords b) = n) /\
  (b_texts b = take n (texts st) /\ b_numbers b = take n (numbers st) /\
   b_x_coords b = take n coords.*1 /\ b_y_coords b = take n coords.*2) /\
  (b_texts b `prefix_of` texts st /\ b_numbers b `prefix_of` numbers st /\
   b_x_coords b `prefix_of` coords.*1 /\ b_y_coords b `prefix_of` coords.*2).
Proof.
  intros [Hinv _]%aggregator_inv. by apply bind_coords_spec.
Qed.

Lemma full_source_unfold (t : table) :
  full_source inp = Some t ->
  exists st, aggregator inp = Some st /\
    t = build_table (expansions_map st) (bind_coords st (coords_2d inp)).
Proof.
  unfold full_source. destruct (aggregator inp) as [st|]; simpl; [|done].
  intros [= <-]. eauto.
Qed.

Lemma full_source_rectangular (t : table) :
  full_source inp = Some t -> exists n, rectangular t n.
Proof.
  intros (st & Hst & ->)%full_source_unfold.
  destruct (bind_coords_spec st (coords_2d inp))
    as ((H1 & H2 & H3 & H4) & _); [by destruct (aggregator_inv _ _ Hst)|].
  exists (length (texts st) `min` length (coords_2d inp)).
  unfold rectangular. simpl.
  repeat split; try (etrans; [apply length_fmap|]);
    first [exact H3|exact H4|exact H1|exact H2].
Qed.

(** C4. In the full table every row's expansion list has at most 10
    entries; they are the texts of examples whose activation for the
    feature that created the row's bubble (the first qualifying feature
    of the iteration with that label) is strictly above 0.1, listed by
    non-increasing activation. *)
Theorem expansions_top10 (t : table) :
  full_source inp = Some t ->
  length (d_expansions t) = length (d_text t) /\
  forall k l es, d_text t !! k = Some l -> d_expansions t !! k = Some es ->
    length es <= 10 /\
    exists m pre i post,
      max_key (feature_labels inp) = Some m /\
      first_hit inp (nonzero_features A m) l
        (iterated (nonzero_features A m)) pre i post /\
      feature_labels inp !! i = Some l /\
      top_expansions inp i es.
Proof.
  intros (st & Hst & ->)%full_source_unfold. simpl.
  split; [by rewrite length_fmap|].
  intros k l es Hk He.
  rewrite list_lookup_fmap, Hk in He. simpl in He.
  apply lookup_take_Some in Hk as [Hk _].
  destruct (aggregator_unfold _ _ Hst) as (m & Hm & Hloop).
  set (nz := nonzero_features A m) in *.
  destruct (loop_texts_sound _ _ _ _ _ _ Hloop
              (list_elem_of_lookup_2 _ _ _ Hk))
    as [Hnil|(j & Hj & Hhit)]; [by apply elem_of_nil in Hnil|].
  destruct (first_hit_exists inp nz _ _ _ Hj Hhit)
    as (pre & i & post & Hfirst).
  destruct (loop_created inp nz _ _ _ _ _ _ _ agg_init_inv
              (not_elem_of_nil l) Hfirst Hloop)
    as (st1 & es' & _ & Hes & _ & _ & Hmap).
  rewrite Hmap in He. simpl in He. simplify_eq.
  pose proof (expansions_of_spec _ _ _ Hes) as Htop.
  split.
  - destruct Htop as (js & Hf2 & Hlen & _).
    by rewrite <-(Forall2_length _ _ _ Hf2).
  - exists m, pre, i, post. split; [done|]. split; [done|]. split; [|done].
    destruct Hfirst as (_ & [c Hc] & _).
    by apply label_hit_Some, qualifies_label in Hc as [? _].
Qed.

(** C10. Every count of the full table exceeds 50, so the slider at any
    value up to 50, the initial value 5 included, rebuilds the working
    table as the full table itself. *)
Theorem counts_above_50 (t : table) :
  full_source inp = Some t ->
  Forall (fun c => 50 < c) (d_number t) /\
  (forall threshold, (threshold <= 50)%Q ->
     slider_code threshold (to_js t) = to_js t) /\
  slider_code (Qnat min_nonzero) (to_js t) = to_js t.
Proof.
  intros Ht. destruct (full_source_rectangular _ Ht) as [n Hrect].
  destruct (full_source_unfold _ Ht) as (st & Hst & ->).
  assert (Forall (fun c => 50 < c)
            (d_number (build_table (expansions_map st)
                         (bind_coords st (coords_2d inp))))) as Hall.
  { simpl. apply Forall_take. by destruct (aggregator_inv _ _ Hst). }
  assert (forall threshold, (threshold <= 50)%Q ->
            slider_code threshold
              (to_js (build_table (expansions_map st)
                        (bind_coords st (coords_2d inp))))
            = to_js (build_table (expansions_map st)
                       (bind_coords st (coords_2d inp)))) as Hkeep.
  { intros threshold Hthr. apply (slider_code_keeps_all _ _ n Hrect).
    eapply Forall_impl; [exact Hall|]. intros c Hc. simpl in Hc.
    apply Qle_trans with (Qnat 50); [exact Hthr|].
    apply (Qnat_le 50 c). lia. }
  split; [done|]. split; [done|]. apply Hkeep.
  apply (proj2 (Qnat_le 5 50)). lia.
Qed.

End table_facts.

(** * Further properties of the pipeline *)

Section aggregator_more.
Context `{!ArgSort nat le} `{!ArgSort Q Qle}.
Variable inp : inputs.

Local Abbreviation A := (feature_activations inp).

(** An empty label mapping makes [max] raise at line 21: the script
    stops before any table exists. *)
Theorem empty_labels_abort :
  feature_labels inp = ∅ ->
  max_key (feature_labels inp) = None /\
  aggregator inp = None /\ full_source inp = None.
Proof.
  intros Hemp.
  assert (max_key (feature_labels inp) = None) as Hm.
  { unfold max_key. by rewrite Hemp, map_to_list_empty. }
  assert (aggregator inp = None) as Hagg.
  { unfold aggregator. by rewrite Hm. }
  split; [done|]. split; [done|]. unfold full_source. by rewrite Hagg.
Qed.

(** With at most 100 columns in the labelled range the slice
    [top_features[100:]] is empty: no bubble is made, the table is
    empty and the slider falls back to the bound 100. *)
Theorem narrow_range_no_bubbles (m : nat) :
  max_key (feature_labels inp) = Some m ->
  m `min` ncols A <= 100 ->
  aggregator inp = Some agg_init /\
  exists t, full_source inp = Some t /\ rectangular t 0 /\
    make_slider (d_number t)
    = Some {| s_start := 5; s_end := 100; s_value := 5; s_step := 1 |}.
Proof.
  intros Hm Hw.
  assert (aggregator inp = Some agg_init) as Hagg.
  { unfold aggregator. rewrite Hm. simpl. unfold iterated.
    rewrite drop_ge; [done|].
    by rewrite top_features_perm, length_seq, nonzero_features_length. }
  split; [done|]. unfold full_source. rewrite Hagg. simpl.
  eexists. split; [done|]. split; [|done].
  unfold rectangular. simpl. by repeat split.
Qed.

(** Only features below both the largest labelled index and the width
    of the matrix are ever visited; the feature with the largest
    labelled index is labelled and yet never visited. *)
Theorem iterated_below_max_key (m : nat) :
  max_key (feature_labels inp) = Some m ->
  is_Some (feature_labels inp !! m) /\
  (m ∉ iterated (nonzero_features A m)) /\
  forall i, i ∈ iterated (nonzero_features A m) -> i < m /\ i < ncols A.
Proof.
  intros Hm.
  assert (forall i, i ∈ iterated (nonzero_features A m) ->
                    i < m /\ i < ncols A) as Hlt.
  { intros i Hi.
    pose proof (iterated_lt (nonzero_features A m)) as Hall.
    rewrite Forall_forall in Hall. apply Hall in Hi.
    rewrite nonzero_features_length in Hi. lia. }
  split; [by apply max_key_spec|]. split; [|done].
  intros Hin. apply Hlt in Hin. lia.
Qed.

(** The keys of [expansions_map] are exactly the labels of [texts]. *)
Lemma loop_map_keys nz fs st st' :
  (forall l, l ∈ texts st <-> is_Some (expansions_map st !! l)) ->
  aggregate_loop inp nz fs st = Some st' ->
  forall l, l ∈ texts st' <-> is_Some (expansions_map st' !! l).
Proof.
  revert st. induction fs as [|i fs IH]; intros st Hkeys Hloop; simpl in *.
  - by assert (st' = st) as -> by congruence.
  - destruct (visit inp nz st i) as [st1|] eqn:Hv; simpl in *; [|done].
    apply (IH st1); [|done].
    destruct (visit_cases _ _ _ _ _ Hv)
      as [[_ ->]|[(l' & c & es & _ & _ & _ & ->)
                 |(l' & c & idx & old' & _ & _ & _ & ->)]];
      simpl; [done| |done].
    intros l. rewrite elem_of_app, list_elem_of_singleton, Hkeys.
    destruct (decide (l' = l)) as [->|Hne].
    + rewrite lookup_insert_eq. split; [by eexists|by right].
    + rewrite lookup_insert_ne by done. split; [|by left].
      by intros [?|?].
Qed.

Lemma aggregator_map_keys (st : agg_state) :
  aggregator inp = Some st ->
  forall l, l ∈ texts st <-> is_Some (expansions_map st !! l).
Proof.
  intros (m & _ & Hloop)%aggregator_unfold.
  eapply loop_map_keys; [|exact Hloop].
  intros l. simpl. rewrite lookup_empty. split.
  - by intros ?%elem_of_nil.
  - by intros [? ?].
Qed.

(** Deduplication: the bubble list holds no label twice, it holds
    exactly the labels of the qualifying features of the iteration, and
    [expansions_map] has an entry for exactly these labels, so the
    default of [expansions_map.get(t, [])] is never taken. *)
Theorem labels_unique_and_exact (st : agg_state) :
  aggregator inp = Some st ->
  exists m, max_key (feature_labels inp) = Some m /\
    NoDup (texts st) /\
    length (numbers st) = length (texts st) /\
    (forall l, l ∈ texts st <->
       exists i, i ∈ iterated (nonzero_features A m) /\
         is_Some (label_hit inp (nonzero_features A m) l i)) /\
    (forall l, l ∈ texts st <-> is_Some (expansions_map st !! l)).
Proof.
  intros Hst. destruct (aggregator_unfold _ _ Hst) as (m & Hm & Hloop).
  destruct (aggregator_inv _ _ Hst) as [[Hlen Hnd] _].
  exists m. split; [done|]. split; [done|]. split; [done|]. split.
  - intros l. split.
    + intros Hl.
      by destruct (loop_texts_sound _ _ _ _ _ _ Hloop Hl)
        as [Hnil%elem_of_nil|?].
    + intros (j & Hj & Hhit).
      destruct (first_hit_exists inp _ _ _ _ Hj Hhit)
        as (pre & i & post & Hfirst).
      destruct (loop_created inp _ _ _ _ _ _ _ _ agg_init_inv
                  (not_elem_of_nil l) Hfirst Hloop)
        as (st1 & es & _ & _ & Ht & _).
      by eapply list_elem_of_lookup_2.
  - by apply aggregator_map_keys.
Qed.

(** A missing example text is fatal: if the feature that creates a
    bubble has, among its 10 rows of highest activation, one whose
    activation exceeds the binary64 value of 0.1 and which has no entry
    in [ind_to_question], the lookup of line 38 raises and the script
    stops. *)
Theorem missing_question_aborts (m : nat) (l : string)
    (pre : list nat) (i : nat) (post : list nat) (j : nat) :
  max_key (feature_labels inp) = Some m ->
  first_hit inp (nonzero_features A m) l
    (iterated (nonzero_features A m)) pre i post ->
  j ∈ top_examples inp i ->
  (3602879701896397 # 36028797018963968 < cell A j i)%Q ->
  ind_to_question inp !! j = None ->
  aggregator inp = None /\ full_source inp = None.
Proof.
  intros Hm Hfirst Htop Hact Hnone.
  assert (j ∈ expansion_rows inp i) as Hj.
  { unfold expansion_rows. apply elem_of_List_filter.
    split; [done|]. by apply Qgtb_gt. }
  assert (aggregator inp = None) as Hagg.
  { destruct (aggregator inp) as [st|] eqn:Hst; [|done]. exfalso.
    destruct (aggregator_unfold _ _ Hst) as (m' & Hm' & Hloop).
    assert (m' = m) as -> by congruence.
    destruct (loop_created inp _ _ _ _ _ _ _ _ agg_init_inv
                (not_elem_of_nil l) Hfirst Hloop)
      as (st1 & es & _ & Hes & _).
    apply mapM_Some in Hes.
    apply list_elem_of_lookup in Hj as [k Hk].
    destruct (Forall2_lookup_l _ _ _ _ _ Hes Hk) as (e & _ & He).
    congruence. }
  split; [done|]. unfold full_source. by rewrite Hagg.
Qed.

End aggregator_more.

(** ** Counts along the ranking *)

Lemma max_list_le_bound (c : nat) (l : list nat) :
  Forall (fun n => n <= c) l -> max_list l <= c.
Proof. induction 1; simpl; lia. Qed.

Lemma by_count_desc_tail nz i fs :
  by_count_desc nz (i :: fs) -> by_count_desc nz fs.
Proof.
  intros Hd p q a b ca cb Hpq Hp Hq. apply (Hd (S p) (S q)); [lia|done..].
Qed.

Lemma by_count_desc_head nz i fs c j cj :
  by_count_desc nz (i :: fs) -> nz !! i = Some c ->
  j ∈ fs -> nz !! j = Some cj -> cj <= c.
Proof.
  intros Hd Hc [q Hq]%list_elem_of_lookup Hcj.
  apply (Hd 0 (S q) i j); [lia|done..].
Qed.

Section ranking_more.
Context `{!ArgSort nat le} `{!ArgSort Q Qle}.
Variable inp : inputs.

Local Abbreviation A := (feature_activations inp).

Lemma iterated_by_count_desc (nz : list nat) :
  by_count_desc nz (iterated nz).
Proof.
  intros p q a b ca cb Hpq Hp Hq Ha Hb.
  unfold iterated in *. rewrite lookup_drop in Hp, Hq.
  apply (reverse_argsort_sorted nz (100 + p) (100 + q) a b ca cb);
    [lia|done..].
Qed.

(** Along a ranking by non-increasing count the update branch never
    changes a stored count, and the counts are appended in
    non-increasing order. *)
Lemma loop_sorted nz fs st st' :
  by_count_desc nz fs ->
  StronglySorted (flip le) (numbers st) ->
  counts_above nz (numbers st) fs ->
  aggregate_loop inp nz fs st = Some st' ->
  StronglySorted (flip le) (numbers st') /\
  numbers st `prefix_of` numbers st'.
Proof.
  revert st. induction fs as [|i fs IH];
    intros st Hdesc Hsorted Habove Hloop; simpl in *.
  - by assert (st' = st) as -> by congruence.
  - destruct (visit inp nz st i) as [st1|] eqn:Hv; simpl in *; [|done].
    pose proof (by_count_desc_tail _ _ _ Hdesc) as Hdesc'.
    assert (counts_above nz (numbers st) fs) as Habove'.
    { intros c j cj Hc Hj. apply Habove; [done|by right]. }
    destruct (visit_cases _ _ _ _ _ Hv)
      as [[_ ->]|[(l' & c & es & Hq & _ & _ & ->)
                 |(l' & c & idx & old' & Hq & _ & Hold & ->)]].
    + by apply IH.
    + apply qualifies_label in Hq as [_ Hc].
      assert (StronglySorted (flip le) (numbers st ++ [c])) as Hs1.
      { apply StronglySorted_app_2; [|done|repeat constructor].
        intros x1 x2 Hx1 Hx2%list_elem_of_singleton. subst x2.
        apply (Habove x1 i c); [done|by left|done]. }
      assert (counts_above nz (numbers st ++ [c]) fs) as Ha1.
      { intros c0 j cj [Hc0|Hc0%list_elem_of_singleton]%elem_of_app Hj Hcj.
        - by apply (Habove' c0 j cj).
        - subst c0. by apply (by_count_desc_head nz i fs c j cj). }
      pose proof (fun H1 H2 => IH _ Hdesc' H1 H2 Hloop) as IH'.
      simpl in IH'. destruct (IH' Hs1 Ha1) as [Hs Hp].
      split; [done|]. etrans; [|exact Hp]. by apply prefix_app_r.
    + apply qualifies_label in Hq as [_ Hc].
      assert (c <= old') as Hle.
      { apply (Habove old' i c); [|by left|done].
        by eapply list_elem_of_lookup_2. }
      assert (<[idx := old' `max` c]> (numbers st) = numbers st) as Hid.
      { apply list_insert_id. rewrite Hold. f_equal. lia. }
      rewrite Hid in Hloop.
      by destruct (IH {| texts := texts st; numbers := numbers st;
                          expansions_map := expansions_map st |}
                     Hdesc' Hsorted Habove' Hloop).
Qed.

Lemma aggregator_numbers_sorted (st : agg_state) (k1 k2 c1 c2 : nat) :
  aggregator inp = Some st -> k1 <= k2 ->
  numbers st !! k1 = Some c1 -> numbers st !! k2 = Some c2 -> c2 <= c1.
Proof.
  intros (m & _ & Hloop)%aggregator_unfold Hk H1 H2.
  set (nz := nonzero_features A m) in *.
  assert (counts_above nz (numbers agg_init) (iterated nz)) as Ha0
    by (by intros ? ? ? ?%elem_of_nil).
  destruct (loop_sorted nz _ agg_init _ (iterated_by_count_desc nz)
              (SSorted_nil _) Ha0 Hloop)
    as [Hs _].
  destruct (decide (k1 = k2)) as [->|Hne]; [by simplify_eq|].
  apply (StronglySorted_lookup_lt (flip le) _ k1 k2 c1 c2 Hs);
    [lia|done..].
Qed.

(** The count of a bubble is the nonzero count of the feature that
    created it: later features with the same label come later in the
    ranking and cannot raise it.  The count list is therefore in
    non-increasing order, the first bubble having the largest count. *)
Theorem counts_of_creators (st : agg_state) :
  aggregator inp = Some st ->
  exists m, max_key (feature_labels inp) = Some m /\
    (forall l pre i post,
       first_hit inp (nonzero_features A m) l
         (iterated (nonzero_features A m)) pre i post ->
       exists k c, texts st !! k = Some l /\
         nonzero_features A m !! i = Some c /\
         numbers st !! k = Some c) /\
    (forall k1 k2 c1 c2, k1 <= k2 ->
       numbers st !! k1 = Some c1 -> numbers st !! k2 = Some c2 ->
       c2 <= c1).
Proof.
  intros Hst. destruct (aggregator_unfold _ _ Hst) as (m & Hm & Hloop).
  set (nz := nonzero_features A m) in *.
  exists m. split; [done|]. split.
  - intros l pre i post Hfirst. fold nz in Hfirst.
    destruct (loop_created inp nz _ _ _ _ _ _ _ agg_init_inv
                (not_elem_of_nil l) Hfirst Hloop)
      as (st1 & es & _ & _ & Ht & Hn & _).
    destruct Hfirst as (Hfs & [c Hhit] & Hpre).
    pose proof Hhit as Hq. apply label_hit_Some, qualifies_label in Hq as [_ Hc].
    exists (length (texts st1)), c. split; [done|]. split; [done|].
    rewrite Hn. f_equal.
    rewrite Hfs, label_counts_app, Hpre. simpl. rewrite Hhit. simpl.
    apply Nat.max_l, max_list_le_bound, Forall_forall.
    intros c' (j & Hj & Hjhit)%list_elem_of_omap.
    apply label_hit_Some, qualifies_label in Hjhit as [_ Hcj].
    apply list_elem_of_lookup in Hj as [q Hq].
    apply (iterated_by_count_desc nz (length pre) (length pre + S q) i j);
      [lia| | |done..].
    + rewrite Hfs. by apply list_lookup_middle.
    + rewrite Hfs, lookup_app_r by lia.
      by replace (length pre + S q - length pre) with (S q) by lia.
  - intros k1 k2 c1 c2. by apply aggregator_numbers_sorted.
Qed.

(** ** The expansion rows are the top of the column *)

Lemma top_examples_NoDup i : NoDup (top_examples inp i).
Proof.
  unfold top_examples. eapply sublist_NoDup; [|apply sublist_take].
  rewrite reverse_Permutation. apply argsort_NoDup.
Qed.

Lemma outside_top_examples i j :
  j < nrows A -> (j ∉ top_examples inp i) ->
  exists q, 10 <= q /\ reverse (argsort (column A i)) !! q = Some j.
Proof.
  intros Hj Hnin.
  assert (j ∈ reverse (argsort (column A i))) as [q Hq]%list_elem_of_lookup.
  { apply elem_of_reverse, argsort_elem_of. by rewrite column_length. }
  exists q. split; [|done].
  destruct (decide (10 <= q)) as [|Hlt]; [done|].
  destruct Hnin. unfold top_examples. apply list_elem_of_lookup.
  exists q. rewrite lookup_take_lt by lia. done.
Qed.

(** The rows listed for a feature are distinct examples taken from the
    10 rows of highest activation: no row outside these 10 has a higher
    activation than a row inside, and when fewer than 10 rows are
    listed, every example with activation above the binary64 value of
    0.1 is listed. *)
Theorem expansion_rows_top (i : nat) :
  NoDup (expansion_rows inp i) /\
  (forall j, j ∈ expansion_rows inp i <->
     j ∈ top_examples inp i /\
     (3602879701896397 # 36028797018963968 < cell A j i)%Q) /\
  length (top_examples inp i) = 10 `min` nrows A /\
  (forall j j', j ∈ top_examples inp i -> j' < nrows A ->
     (j' ∉ top_examples inp i) ->
     (cell A j' i <= cell A j i)%Q) /\
  (length (expansion_rows inp i) < 10 ->
   forall j, j < nrows A ->
     (3602879701896397 # 36028797018963968 < cell A j i)%Q ->
     j ∈ expansion_rows inp i).
Proof.
  assert (forall j, j ∈ expansion_rows inp i <->
            j ∈ top_examples inp i /\
            (3602879701896397 # 36028797018963968 < cell A j i)%Q)
    as Hmem.
  { intros j. unfold expansion_rows.
    rewrite elem_of_List_filter, Qgtb_gt. done. }
  assert (length (top_examples inp i) = 10 `min` nrows A) as Hlen.
  { unfold top_examples.
    by rewrite length_take, length_reverse, argsort_length, column_length. }
  assert (forall j j', j ∈ top_examples inp i -> j' < nrows A ->
            (j' ∉ top_examples inp i) ->
            (cell A j' i <= cell A j i)%Q) as Htop.
  { intros j j' Hj Hj' Hnin.
    destruct (outside_top_examples i j' Hj' Hnin) as (q & Hq10 & Hq).
    pose proof (top_examples_lt _ _ _ Hj) as Hjlt.
    unfold top_examples in Hj. apply elem_of_take in Hj as (p & Hp & Hp10).
    apply (reverse_argsort_sorted (column A i) p q j j');
      [lia|done|done|by apply column_lookup|by apply column_lookup]. }
  split; [apply List_filter_NoDup, top_examples_NoDup|].
  split; [done|]. split; [done|]. split; [done|].
  intros Hshort j Hj Hact.
  destruct (decide (j ∈ top_examples inp i)) as [Hin|Hnin];
    [by apply Hmem|].
  exfalso.
  destruct (outside_top_examples i j Hj Hnin) as (q & Hq10 & Hq).
  apply lookup_lt_Some in Hq.
  rewrite length_reverse, argsort_length, column_length in Hq.
  assert (expansion_rows inp i = top_examples inp i) as Heq.
  { apply List_filter_all. intros x Hx. apply Qgtb_gt.
    eapply Qlt_le_trans; [exact Hact|]. by apply Htop. }
  rewrite Heq, Hlen in Hshort. lia.
Qed.

(** ** The shape of the full table *)

(** All seven columns of the full table have the bound length; its
    labels are pairwise distinct; row by row the truncated text is the
    truncation of the text, the expansions are the entry of
    [expansions_map] for the text, and the circle size is half the
    count, hence above 25. *)
Theorem full_table_shape (t : table) :
  full_source inp = Some t ->
  exists st, aggregator inp = Some st /\
    rectangular t (length (texts st) `min` length (coords_2d inp)) /\
    NoDup (d_text t) /\
    (forall k l, d_text t !! k = Some l ->
       d_truncated t !! k
       = Some (if 20 <? String.length l
               then String.substring 0 20 l +:+ "..." else l) /\
       d_expansions t !! k = expansions_map st !! l) /\
    (forall k c, d_number t !! k = Some c ->
       d_size t !! k = Some (inject_Z (Z.of_nat c) / 2)%Q /\
       (25 < inject_Z (Z.of_nat c) / 2)%Q).
Proof.
  intros (st & Hst & ->)%full_source_unfold.
  destruct (aggregator_inv _ _ Hst) as [Hinv Hgt].
  destruct (bind_coords_spec st (coords_2d inp) Hinv)
    as ((H1 & H2 & H3 & H4) & _).
  exists st. split; [done|]. split; [|split; [|split]].
  - unfold rectangular. simpl.
    repeat split; try (etrans; [apply length_fmap|]);
      first [exact H3|exact H4|exact H1|exact H2].
  - simpl. eapply sublist_NoDup; [|apply sublist_take]. by destruct Hinv.
  - intros k l Hk. simpl in *. rewrite !list_lookup_fmap, Hk. simpl.
    split; [done|].
    apply lookup_take_Some in Hk as [Hk _].
    apply list_elem_of_lookup_2 in Hk.
    apply (aggregator_map_keys _ _ Hst) in Hk as [es ->]. done.
  - intros k c Hk. simpl in *. rewrite list_lookup_fmap, Hk. simpl.
    split; [done|].
    apply lookup_take_Some in Hk as [Hk _].
    eapply Forall_lookup_1 in Hgt; [|exact Hk]. simpl in Hgt.
    unfold Qlt. simpl. lia.
Qed.

End ranking_more.

(** * Further properties of the callbacks and the table *)

(** ** Truncated labels *)

Lemma string_length_app (s t : string) :
  String.length (s +:+ t) = String.length s + String.length t.
Proof.
  induction s as [|a s IH]; [done|]. rewrite app_String. simpl. by rewrite IH.
Qed.

Lemma substring_app_prefix (pre s : string) :
  String.substring 0 (String.length pre) (pre +:+ s) = pre.
Proof.
  induction pre as [|a pre IH].
  - by destruct s.
  - change (String a pre +:+ s) with (String a (pre +:+ s)).
    simpl. by rewrite IH.
Qed.

(** A truncated label has at most 23 characters, and truncating it
    again changes nothing. *)
Theorem truncate_text_idempotent (t : string) :
  String.length (truncate_text t) <= 23 /\
  String.length (truncate_text t) <= String.length t + 3 /\
  truncate_text (truncate_text t) = truncate_text t.
Proof.
  unfold truncate_text at 1 2 4 5.
  destruct (Nat.ltb_spec 20 (String.length t)) as [Hlong|Hshort].
  - destruct (substring_prefix 20 t) as [Hl _]; [lia|].
    rewrite string_length_app, Hl. simpl.
    split; [lia|]. split; [lia|].
    unfold truncate_text. rewrite string_length_app, Hl. simpl.
    rewrite <-Hl at 1. by rewrite substring_app_prefix.
  - split; [lia|]. split; [lia|].
    unfold truncate_text. by destruct (Nat.ltb_spec 20 (String.length t)); [lia|].
Qed.

(** ** The slider on a table built by the script *)

Lemma slider_code_kept (threshold : Q) (full_data : js_data) :
  slider_code threshold full_data
  = gather full_data (kept threshold full_data).
Proof.
  unfold slider_code, kept. rewrite slider_loop_gather.
  apply js_app_empty_l.
Qed.

Lemma kept_spec (threshold : Q) (t : table) (n i : nat) :
  rectangular t n ->
  i ∈ kept threshold (to_js t) <->
  exists c, d_number t !! i = Some c /\ (threshold <= Qnat c)%Q.
Proof.
  intros (Hx & _ & _ & _ & Hn & _). unfold kept.
  rewrite elem_of_List_filter, elem_of_seq, js_ge_spec. simpl.
  rewrite length_fmap, js_at_Some, Hx. split; [by intros [_ ?]|].
  intros (c & Hc & Hle). split; [|eauto].
  apply lookup_lt_Some in Hc. lia.
Qed.

Lemma gather_column {X} (col : list X) (idxs : list nat) :
  Forall (fun i => i < length col) idxs ->
  js_at (Some <$> col) <$> idxs = Some <$> omap (fun i => col !! i) idxs /\
  length (omap (fun i => col !! i) idxs) = length idxs.
Proof.
  induction 1 as [|i idxs Hi _ [IH1 IH2]]; [done|].
  destruct (lookup_lt_is_Some_2 col i Hi) as [x Hx].
  split.
  - rewrite fmap_cons, js_at_Some, IH1. simpl. by rewrite Hx.
  - simpl. rewrite Hx. simpl. f_equal. exact IH2.
Qed.

(** On a table the script built, the slider yields a table of the same
    kind: no cell is undefined, all seven columns have the same length,
    every remaining count is at least the slider value, and no row is
    added. *)
Theorem slider_on_table (threshold : Q) (t : table) (n : nat) :
  rectangular t n ->
  let idxs := kept threshold (to_js t) in
  slider_code threshold (to_js t) = to_js (table_at t idxs) /\
  rectangular (table_at t idxs) (length idxs) /\
  length idxs <= n /\
  Forall (fun c => (threshold <= Qnat c)%Q) (d_number (table_at t idxs)).
Proof.
  intros Hrect idxs.
  assert (Forall (fun i => i < n) idxs) as Hlt.
  { apply Forall_forall. intros i (c & Hc & _)%(kept_spec _ _ _ _ Hrect).
    destruct Hrect as (_ & _ & _ & _ & Hn & _).
    apply lookup_lt_Some in Hc. lia. }
  destruct Hrect as (Hx & Hy & Ht & Htr & Hn & Hs & He).
  destruct (gather_column (d_x t) idxs) as [Ex Lx]; [by rewrite Hx|].
  destruct (gather_column (d_y t) idxs) as [Ey Ly]; [by rewrite Hy|].
  destruct (gather_column (d_text t) idxs) as [Et Lt]; [by rewrite Ht|].
  destruct (gather_column (d_truncated t) idxs) as [Etr Ltr];
    [by rewrite Htr|].
  destruct (gather_column (d_number t) idxs) as [En Ln]; [by rewrite Hn|].
  destruct (gather_column (d_size t) idxs) as [Es Ls]; [by rewrite Hs|].
  destruct (gather_column (d_expansions t) idxs) as [Ee Le];
    [by rewrite He|].
  split; [|split; [|split]].
  - rewrite slider_code_kept. fold idxs. unfold gather, to_js. simpl.
    by rewrite Ex, Ey, Et, Etr, En, Es, Ee.
  - by repeat split.
  - unfold idxs, kept. etrans; [apply filter_length_le|].
    simpl. by rewrite length_seq, length_fmap, Hx.
  - apply Forall_forall. intros c (i & Hi & Hc)%list_elem_of_omap.
    apply (kept_spec threshold t n) in Hi as (c' & Hc' & Hle);
      [|by repeat split].
    by simplify_eq.
Qed.

Lemma List_filter_sublist {X} (f g : X -> bool) (l : list X) :
  (forall x, g x = true -> f x = true) ->
  List.filter g l `sublist_of` List.filter f l.
Proof.
  intros Himp. induction l as [|x l IH]; simpl; [constructor|].
  destruct (g x) eqn:Hg.
  - rewrite (Himp x Hg). by constructor.
  - destruct (f x); [by constructor|done].
Qed.

Lemma fmap_sublist {X Y} (f : X -> Y) (l k : list X) :
  l `sublist_of` k -> f <$> l `sublist_of` f <$> k.
Proof. induction 1; simpl; by constructor. Qed.

(** Raising the slider only removes rows: at a higher value every
    column is a sublist of what a lower value gives, and at any value
    it is a sublist of the full table read position by position. *)
Theorem slider_monotone (t1 t2 : Q) (full_data : js_data) :
  (t1 <= t2)%Q ->
  kept t2 full_data `sublist_of` kept t1 full_data /\
  js_sublist (slider_code t2 full_data) (slider_code t1 full_data) /\
  js_sublist (slider_code t1 full_data)
    (gather full_data (seq 0 (length (js_x full_data)))).
Proof.
  intros Hle.
  assert (kept t2 full_data `sublist_of` kept t1 full_data) as Hsub.
  { apply List_filter_sublist. intros i (c & Hc & Hc2)%js_ge_spec.
    apply js_ge_spec. exists c. split; [done|]. by eapply Qle_trans. }
  assert (kept t1 full_data
            `sublist_of` seq 0 (length (js_x full_data))) as Hall.
  { unfold kept. rewrite <-(List_filter_all (fun _ => true) (seq 0 _))
      at 2 by done.
    by apply List_filter_sublist. }
  split; [done|]. rewrite !slider_code_kept.
  split; repeat split; simpl; by apply fmap_sublist.
Qed.

Lemma List_filter_none {X} (f : X -> bool) (l : list X) :
  (forall x, x ∈ l -> f x = false) -> List.filter f l = [].
Proof.
  induction l as [|x l IH]; intros Hall; simpl; [done|].
  rewrite (Hall x) by left. apply IH. intros y Hy. apply Hall. by right.
Qed.

(** The slider's upper bound is the largest count, so at its upper end
    the working table is not empty and holds only rows with that count;
    any value above it would empty the table. *)
Theorem slider_at_upper_bound (t : table) (n : nat) (s : slider) :
  rectangular t n -> d_number t <> [] ->
  make_slider (d_number t) = Some s ->
  js_number (slider_code (Qnat (s_end s)) (to_js t)) <> [] /\
  Forall (fun c => c = Some (s_end s))
    (js_number (slider_code (Qnat (s_end s)) (to_js t))) /\
  forall threshold, (Qnat (s_end s) < threshold)%Q ->
    slider_code threshold (to_js t) = js_empty.
Proof.
  intros Hrect Hne Hs.
  assert (s_end s ∈ d_number t /\
          Forall (fun c => c <= s_end s) (d_number t)) as [Hin Hmax].
  { unfold make_slider, max_nonzero in Hs.
    destruct (d_number t) as [|c cs] eqn:E; [done|].
    simpl in Hs. injection Hs as <-. simpl. apply foldl_max_spec. }
  rewrite Forall_forall in Hmax.
  split; [|split].
  - rewrite slider_code_kept. simpl.
    apply list_elem_of_lookup in Hin as [i Hi].
    assert (i ∈ kept (Qnat (s_end s)) (to_js t)) as Hk.
    { apply (kept_spec _ _ _ _ Hrect). exists (s_end s).
      split; [done|]. by apply Qnat_le. }
    intros Hnil%fmap_nil_inv. rewrite Hnil in Hk. by apply elem_of_nil in Hk.
  - rewrite slider_code_kept. simpl. apply Forall_forall.
    intros c (i & -> & Hi)%list_elem_of_fmap.
    apply (kept_spec _ _ _ _ Hrect) in Hi as (c & Hc & Hle).
    rewrite js_at_Some, Hc. f_equal.
    apply Qnat_le in Hle. apply list_elem_of_lookup_2, Hmax in Hc. lia.
  - intros threshold Hthr. rewrite slider_code_kept.
    assert (kept threshold (to_js t) = []) as ->; [|done].
    apply List_filter_none. intros i _.
    apply not_true_iff_false. intros (c & Hc & Hle)%js_ge_spec.
    simpl in Hc. rewrite js_at_Some in Hc.
    apply list_elem_of_lookup_2, Hmax in Hc. apply Qnat_le in Hc.
    apply (Qlt_irrefl threshold).
    eapply Qle_lt_trans; [exact Hle|]. by eapply Qle_lt_trans.
Qed.

(** ** Selection after filtering *)

Lemma gather_at {X} (col : list (option X)) (idxs : list nat) (k i : nat) :
  idxs !! k = Some i -> js_at (js_at col <$> idxs) k = js_at col i.
Proof.
  intros Hk. unfold js_at at 1. by rewrite list_lookup_fmap, Hk.
Qed.

(** The selection indexes the working table: after the slider moved,
    selecting position [k] shows the bubble that sits at the [k]-th
    kept position of the full table, and a selection left over beyond
    the end of the shrunken table shows the no-expansions message for
    an undefined label. *)
Theorem selection_after_filter (threshold : Q) (full_data : js_data)
    (k : nat) (rest : list nat) :
  (forall i rest', kept threshold full_data !! k = Some i ->
     callback_js (slider_code threshold full_data) (k :: rest)
     = callback_js full_data (i :: rest')) /\
  (length (kept threshold full_data) <= k ->
   callback_js (slider_code threshold full_data) (k :: rest)
   = "<b>No expansions found for:</b> undefined").
Proof.
  rewrite slider_code_kept. split.
  - intros i rest' Hk. simpl. by rewrite !(gather_at _ _ k i Hk).
  - intros Hk. simpl. unfold js_at.
    rewrite !list_lookup_fmap, (lookup_ge_None_2 _ k) by done. done.
Qed.

(** ** Successive zooms *)

Lemma set_range_ranges (p1 p2 : plot) (e : range_change) :
  x_range p1 = x_range p2 -> y_range p1 = y_range p2 ->
  x_range (set_range p1 e) = x_range (set_range p2 e) /\
  y_range (set_range p1 e) = y_range (set_range p2 e).
Proof. intros Hx Hy. destruct e; simpl; by rewrite ?Hx, ?Hy. Qed.

Lemma run_changes_ranges (es : list range_change) (p1 p2 : plot) :
  x_range p1 = x_range p2 -> y_range p1 = y_range p2 ->
  x_range (run_changes p1 es) = x_range (foldl set_range p2 es) /\
  y_range (run_changes p1 es) = y_range (foldl set_range p2 es).
Proof.
  revert p1 p2. induction es as [|e es IH]; intros p1 p2 Hx Hy; [done|].
  simpl. apply IH; by apply (set_range_ranges p1 p2 e).
Qed.

(** Whatever the history, the callback never alters the ranges: they
    are those the changes alone produce.  After the last change the
    labels show exactly when the current width and height, as binary64
    differences [end - start], are both strictly below 5: earlier zoom
    levels and the earlier visibility leave no trace. *)
Theorem zoom_history_independent (p : plot) (es : list range_change)
    (e : range_change) :
  let p' := run_changes p (es ++ [e]) in
  x_range p' = x_range (foldl set_range p (es ++ [e])) /\
  y_range p' = y_range (foldl set_range p (es ++ [e])) /\
  (labelset_visible p' = true <->
   (r_end (x_range p') - r_start (x_range p') <? 5)%float = true /\
   (r_end (y_range p') - r_start (y_range p') <? 5)%float = true).
Proof.
  intros p'.
  destruct (run_changes_ranges (es ++ [e]) p p eq_refl eq_refl) as [Hx Hy].
  split; [done|]. split; [done|].
  unfold p', run_changes. rewrite foldl_snoc.
  apply (zoom_callback_visible (set_range _ e)).
Qed.

(** ** The slider built from the table *)

Section slider_more.
Context `{!ArgSort nat le} `{!ArgSort Q Qle}.
Variable inp : inputs.

(** The slider the script creates is always a proper one: its lower
    bound 5 is strictly below its upper bound, its initial value lies
    within, and for a non-empty table the upper bound is the count of
    the first row. *)
Theorem slider_well_formed (t : table) :
  full_source inp = Some t ->
  exists s, make_slider (d_number t) = Some s /\
    s_start s < s_end s /\
    s_start s <= s_value s <= s_end s /\
    (forall c, d_number t !! 0 = Some c -> s_end s = c).
Proof.
  intros (st & Hst & ->)%full_source_unfold. simpl.
  destruct (aggregator_inv _ _ Hst) as [_ Hgt].
  set (cs := take _ (numbers st)).
  assert (Forall (fun c => 50 < c) cs) as Hgt' by by apply Forall_take.
  assert (forall k c0 c, cs !! 0 = Some c0 -> cs !! k = Some c -> c <= c0)
    as Hhead.
  { intros k c0 c [H0 _]%lookup_take_Some [Hk _]%lookup_take_Some.
    apply (aggregator_numbers_sorted inp st 0 k c0 c Hst); [lia|done..]. }
  unfold make_slider, max_nonzero. destruct cs as [|c0 cs'] eqn:E.
  - eexists. split; [done|]. simpl. unfold min_nonzero.
    split; [lia|]. split; [lia|done].
  - simpl. eexists. split; [done|]. simpl. unfold min_nonzero.
    destruct (foldl_max_spec c0 cs') as [Hin Hmax].
    assert (foldl Nat.max c0 cs' = c0) as ->.
    { apply Nat.le_antisymm.
      - apply list_elem_of_lookup in Hin as [k Hk]. by apply (Hhead k).
      - by apply Forall_cons in Hmax as [? _]. }
    apply Forall_cons in Hgt' as [H50 _].
    split; [lia|]. split; [lia|]. by intros c [= <-].
Qed.

End slider_more.

(** ** The sample run *)

#[local] Existing Instance nat_argsort.
#[local] Existing Instance Q_argsort.

Lemma sample_max_key : max_key (feature_labels sample_inp) = Some 200.
Proof. vm_compute. reflexivity. Defined.

Lemma sample_aggregator : aggregator sample_inp = Some sample_state.
Proof. vm_compute. reflexivity. Defined.

Lemma sample_full_source : full_source sample_inp = Some sample_table.
Proof. vm_compute. reflexivity. Defined.

Example sample_iterated :
  iterated (nonzero_features sample_activations 200) = [0; 2; 1; 3].
Proof. vm_compute. reflexivity. Qed.

Lemma aggregator_ranking_witness :
  max_key (feature_labels sample_inp) = Some 200 /\
  length (nonzero_features sample_activations 200) = 104 /\
  forall f,
    f ∈ take 100 (top_features (nonzero_features sample_activations 200)) ->
    f ∉ iterated (nonzero_features sample_activations 200).
Proof.
  split; [exact sample_max_key|].
  destruct (aggregator_ranking sample_inp 200 sample_max_key)
    as (_ & Hlen & _ & _ & _ & _ & _ & Hskip & _).
  split; [exact Hlen|exact Hskip].
Defined.

Lemma binding_truncates_witness :
  aggregator sample_inp = Some sample_state /\
  length (b_texts (bind_coords sample_state sample_coords)) = 2 /\
  length (b_x_coords (bind_coords sample_state sample_coords)) = 2 /\
  b_x_coords (bind_coords sample_state sample_coords)
  = take 2 sample_coords.*1.
Proof.
  split; [exact sample_aggregator|].
  destruct (binding_truncates sample_inp sample_state sample_coords
              sample_aggregator)
    as ((Ht & _ & Hx & _) & (_ & _ & Hpx & _) & _).
  split; [exact Ht|]. split; [exact Hx|exact Hpx].
Defined.

Lemma dedup_keeps_max_witness :
  2 ∈ iterated (nonzero_features sample_activations 200) /\
  label_hit sample_inp (nonzero_features sample_activations 200) "cats" 2
  = Some 53 /\
  numbers sample_state !! 0
  = Some (max_list
            (label_counts sample_inp (nonzero_features sample_activations 200)
               "cats" (iterated (nonzero_features sample_activations 200)))).
Proof.
  assert (2 ∈ iterated (nonzero_features sample_activations 200)) as Hin
    by (rewrite sample_iterated; right; left).
  assert (label_hit sample_inp (nonzero_features sample_activations 200)
            "cats" 2 = Some 53) as Hhit by (vm_compute; reflexivity).
  split; [exact Hin|]. split; [exact Hhit|].
  destruct (dedup_keeps_max sample_inp 200 sample_state "cats" 2
              sample_max_key sample_aggregator Hin (ex_intro _ 53 Hhit))
    as (pre & i & post & k & st1 & es & _ & _ & _ & _ & Huniq & Hn & _).
  rewrite (Huniq 0 eq_refl). exact Hn.
Defined.

Lemma expansions_top10_witness :
  full_source sample_inp = Some sample_table /\
  forall k l es,
    d_text sample_table !! k = Some l ->
    d_expansions sample_table !! k = Some es ->
    length es <= 10.
Proof.
  split; [exact sample_full_source|].
  intros k l es Hk He.
  destruct (expansions_top10 sample_inp sample_table sample_full_source)
    as (_ & Hall).
  destruct (Hall k l es Hk He) as (Hlen & _). exact Hlen.
Defined.

Lemma counts_above_50_witness :
  full_source sample_inp = Some sample_table /\
  d_number sample_table = [55; 52] /\
  slider_code 5 (to_js sample_table) = to_js sample_table.
Proof.
  split; [exact sample_full_source|]. split; [reflexivity|].
  destruct (counts_above_50 sample_inp sample_table sample_full_source)
    as (_ & _ & Hinit).
  exact Hinit.
Defined.

(** The callbacks on the sample table. *)

Example scenario_slider_10 :
  js_number (slider_code 10 (to_js scenario_table)) = [Some 10; Some 60] /\
  js_text (slider_code 10 (to_js scenario_table)) = [Some "b"; Some "c"].
Proof. vm_compute. done. Qed.

Example sample_slider_53 :
  js_text (slider_code 53 (to_js sample_table)) = [Some "cats"].
Proof. vm_compute. reflexivity. Qed.

Example sample_select_dogs :
  callback_js (to_js sample_table) [1]
  = "<div style=" +:+ dq +:+ "font-size: 12px;" +:+ dq +:+ ">dogs</div>" +:+
    "<ul style=" +:+ dq +:+ "font-size: 12px;" +:+ dq +:+ ">" +:+
    "<li>2</li><li>1</li><li>0</li></ul>".
Proof. vm_compute. reflexivity. Qed.

Example sample_select_outside :
  callback_js (to_js sample_table) [7]
  = "<b>No expansions found for:</b> undefined".
Proof. vm_compute. reflexivity. Qed.

Example sample_truncate :
  truncate_text "a label of thirty-one characters"
  = "a label of thirty-on...".
Proof. vm_compute. reflexivity. Qed.

Example sample_zoom :
  labelset_visible
    (on_range_change
       {| x_range := {| r_start := 0; r_end := 4 |};
          y_range := {| r_start := 1; r_end := 10 |};
          labelset_visible := false |}
       (y_end 4))
  = true.
Proof. vm_compute. reflexivity. Qed.

(** The difference is the rounded one: from 0.1 to 5.1 and from 2^-60
    to 5 the binary64 difference is exactly 5, and the labels stay
    hidden. *)
Example sample_zoom_rounding :
  labelset_visible
    (on_range_change
       {| x_range := {| r_start := 0x1.999999999999ap-4;
                        r_end := 0x1.4666666666666p+2 |};
          y_range := {| r_start := 0; r_end := 1 |};
          labelset_visible := true |}
       (y_end 2))
  = false /\
  labelset_visible
    (on_range_change
       {| x_range := {| r_start := 0x1p-60; r_end := 0 |};
          y_range := {| r_start := 0; r_end := 1 |};
          labelset_visible := true |}
       (x_end 5))
  = false.
Proof. vm_compute. done. Qed.

(** Runs that stop early, and the callbacks on concrete tables. *)

Lemma empty_labels_abort_witness :
  feature_labels sample_inp_unlabelled = ∅ /\
  full_source sample_inp_unlabelled = None.
Proof.
  split; [reflexivity|].
  destruct (empty_labels_abort sample_inp_unlabelled eq_refl)
    as (_ & _ & Hfull).
  exact Hfull.
Defined.

Lemma sample_narrow_max_key :
  max_key (feature_labels sample_inp_narrow) = Some 200.
Proof. vm_compute. reflexivity. Defined.

Lemma narrow_range_no_bubbles_witness :
  max_key (feature_labels sample_inp_narrow) = Some 200 /\
  200 `min` ncols (feature_activations sample_inp_narrow) <= 100 /\
  aggregator sample_inp_narrow = Some agg_init.
Proof.
  assert (200 `min` ncols (feature_activations sample_inp_narrow) <= 100)
    as Hw by (simpl; lia).
  split; [exact sample_narrow_max_key|]. split; [exact Hw|].
  destruct (narrow_range_no_bubbles sample_inp_narrow 200
              sample_narrow_max_key Hw) as [Hagg _].
  exact Hagg.
Defined.

Lemma sample_tight_max_key :
  max_key (feature_labels sample_inp_tight) = Some 103.
Proof. vm_compute. reflexivity. Defined.

(** Feature 103 is a column of the matrix, is labelled and is active on
    all 60 examples, yet it is outside the slice and gets no bubble. *)
Lemma iterated_below_max_key_witness :
  max_key (feature_labels sample_inp_tight) = Some 103 /\
  103 < ncols (feature_activations sample_inp_tight) /\
  feature_labels sample_inp_tight !! 103 = Some "last" /\
  (103 ∉ iterated (nonzero_features sample_activations 103)) /\
  (texts <$> aggregator sample_inp_tight) = Some ["cats"; "dogs"].
Proof.
  split; [exact sample_tight_max_key|].
  split; [simpl; lia|]. split; [vm_compute; reflexivity|].
  destruct (iterated_below_max_key sample_inp_tight 103 sample_tight_max_key)
    as (_ & Hnot & _).
  split; [exact Hnot|]. vm_compute. reflexivity.
Defined.

Lemma labels_unique_and_exact_witness :
  aggregator sample_inp = Some sample_state /\
  NoDup (texts sample_state) /\
  forall l, l ∈ texts sample_state <->
            is_Some (expansions_map sample_state !! l).
Proof.
  split; [exact sample_aggregator|].
  destruct (labels_unique_and_exact sample_inp sample_state
              sample_aggregator) as (m & _ & Hnd & _ & _ & Hkeys).
  split; [exact Hnd|exact Hkeys].
Defined.

Lemma sample_gap_first_hit :
  first_hit sample_inp_gap (nonzero_features sample_activations 200) "cats"
    (iterated (nonzero_features sample_activations 200)) [] 0 [2; 1; 3].
Proof.
  split; [vm_compute; reflexivity|]. split; [|reflexivity].
  exists 55. vm_compute. reflexivity.
Defined.

Lemma missing_question_aborts_witness :
  54 ∈ top_examples sample_inp_gap 0 /\
  (3602879701896397 # 36028797018963968
   < cell (feature_activations sample_inp_gap) 54 0)%Q /\
  ind_to_question sample_inp_gap !! 54 = None /\
  aggregator sample_inp_gap = None.
Proof.
  assert (top_examples sample_inp_gap 0
          = [54; 53; 52; 51; 50; 49; 48; 47; 46; 45]) as Hrows
    by (vm_compute; reflexivity).
  assert (54 ∈ top_examples sample_inp_gap 0) as Hin
    by (rewrite Hrows; left).
  assert (3602879701896397 # 36028797018963968
          < cell (feature_activations sample_inp_gap) 54 0)%Q as Hact
    by reflexivity.
  assert (ind_to_question sample_inp_gap !! 54 = None) as Hnone
    by (vm_compute; reflexivity).
  split; [exact Hin|]. split; [exact Hact|]. split; [exact Hnone|].
  destruct (missing_question_aborts sample_inp_gap 200 "cats" [] 0 [2; 1; 3]
              54 sample_max_key sample_gap_first_hit Hin Hact Hnone)
    as [Hagg _].
  exact Hagg.
Defined.

Lemma counts_of_creators_witness :
  aggregator sample_inp = Some sample_state /\
  forall k1 k2 c1 c2, k1 <= k2 ->
    numbers sample_state !! k1 = Some c1 ->
    numbers sample_state !! k2 = Some c2 -> c2 <= c1.
Proof.
  split; [exact sample_aggregator|].
  destruct (counts_of_creators sample_inp sample_state sample_aggregator)
    as (m & _ & _ & Hsorted).
  exact Hsorted.
Defined.

Lemma full_table_shape_witness :
  full_source sample_inp = Some sample_table /\
  rectangular sample_table 2 /\ NoDup (d_text sample_table).
Proof.
  split; [exact sample_full_source|].
  destruct (full_table_shape sample_inp sample_table sample_full_source)
    as (st & Hst & Hrect & Hnd & _).
  assert (st = sample_state) as ->.
  { rewrite sample_aggregator in Hst. by injection Hst. }
  split; [exact Hrect|exact Hnd].
Defined.

Lemma scenario_rectangular : rectangular scenario_table 3.
Proof. repeat split. Defined.

Lemma slider_on_table_witness :
  rectangular scenario_table 3 /\
  slider_code 10 (to_js scenario_table)
  = to_js (table_at scenario_table (kept 10 (to_js scenario_table))).
Proof.
  split; [exact scenario_rectangular|].
  destruct (slider_on_table 10 scenario_table 3 scenario_rectangular)
    as [Heq _].
  exact Heq.
Defined.

Lemma slider_monotone_witness :
  (5 <= 10)%Q /\
  kept 10 (to_js scenario_table) `sublist_of` kept 5 (to_js scenario_table).
Proof.
  assert (5 <= 10)%Q as Hle by (unfold Qle; simpl; lia).
  split; [exact Hle|].
  destruct (slider_monotone 5 10 (to_js scenario_table) Hle) as [Hsub _].
  exact Hsub.
Defined.

Lemma slider_at_upper_bound_witness :
  make_slider (d_number scenario_table)
  = Some {| s_start := 5; s_end := 60; s_value := 5; s_step := 1 |} /\
  js_number (slider_code (Qnat 60) (to_js scenario_table)) <> [].
Proof.
  assert (make_slider (d_number scenario_table)
          = Some {| s_start := 5; s_end := 60; s_value := 5; s_step := 1 |})
    as Hs by reflexivity.
  assert (d_number scenario_table <> []) as Hne by discriminate.
  split; [exact Hs|].
  destruct (slider_at_upper_bound scenario_table 3 _
              scenario_rectangular Hne Hs) as [Hnonempty _].
  exact Hnonempty.
Defined.

Lemma slider_well_formed_witness :
  full_source sample_inp = Some sample_table /\
  exists s, make_slider (d_number sample_table) = Some s /\
            s_start s < s_end s.
Proof.
  split; [exact sample_full_source|].
  destruct (slider_well_formed sample_inp sample_table sample_full_source)
    as (s & Hs & Hlt & _).
  exists s. split; [exact Hs|exact Hlt].
Defined.

Example scenario_select_after_filter :
  callback_js (slider_code 10 (to_js scenario_table)) [0]
  = callback_js (to_js scenario_table) [1].
Proof. vm_compute. reflexivity. Qed.
